(** * A request broker in front of a single text-generation engine

    Shallow embedding of [src/api.py] (with the request types of
    [src/data/requests.py]): the token estimator and the message truncator,
    the [asyncio] queue, future and semaphore the program is built on, the
    consumer task and the [/response] handler, followed by the properties
    of the specification.

    The first part holds the definitions, the second part the lemmas. *)

From Stdlib Require Import ZArith Lia.
From Stdlib Require Import Floats.SpecFloat.
From Stdlib Require Import DecimalString.
From stdpp Require Import base option list functions strings.
From Equations Require Import Equations.

Open Scope Z_scope.

(** * Part I: the program *)

(** ** Python values *)

(** A Python [str] is a sequence of code points; [len] and slicing count
    code points. *)
Abbreviation char := N.
Abbreviation pystr := (list char).

Definition len {A : Type} (l : list A) : Z := Z.of_nat (length l).

(** An ASCII literal of the source, as a [pystr]. *)
Definition lit (s : string) : pystr :=
  Ascii.N_of_ascii <$> String.list_ascii_of_string s.

(** The exceptions that occur.  [CancelledError] and the members of
    [OtherBaseException] derive from [BaseException] only: an
    [except Exception] clause does not catch them. *)
Inductive exn :=
| HTTPException (status_code : Z) (detail : pystr)
| QueueFull
| InvalidStateError
| ValueError
| IndexError
| KeyError (key : pystr)
| TypeError
| TimeoutError
| CancelledError
| OtherException (what : pystr)
| OtherBaseException (what : pystr).

Definition is_Exception (e : exn) : bool :=
  match e with
  | CancelledError | OtherBaseException _ => false
  | _ => true
  end.

(** A computation that returns a value or raises. *)
Inductive result (A : Type) :=
| Ok (a : A)
| Raise (e : exn).
Arguments Ok {A} a.
Arguments Raise {A} e.

#[global] Instance result_ret : MRet result := fun A a => Ok a.
#[global] Instance result_bind : MBind result := fun A B f m =>
  match m with
  | Ok a => f a
  | Raise e => Raise e
  end.

(** [str(e)] for an exception is given by the runtime and by the class of
    [e] (for [HTTPException], by the installed Starlette): it is a
    parameter of the model. *)
Class PyRuntime := { str_exn : exn -> pystr }.

(** ** Binary64 arithmetic, as far as [count_tokens_roughly] needs it

    Python's [float] is IEEE 754 binary64; the operations are those of the
    core library's specification [SpecFloat] at precision 53. *)
Module Float64.

Definition prec : Z := 53.
Definition emax : Z := 1024.

(** [float(n)] for an [int]: the nearest double, ties to even. *)
Definition float_of_int (n : Z) : spec_float :=
  binary_normalize prec emax n 0 false.

(** [x / y] on floats. *)
Definition truediv (x y : spec_float) : spec_float := SFdiv prec emax x y.

(** [int(x)]: truncation towards zero.  Python raises on an infinity or a
    NaN; no length converts to either, and the model returns 0 there. *)
Definition int_of_float (x : spec_float) : Z :=
  match x with
  | S754_finite s m e => cond_Zopp s (Z.shiftl (Zpos m) e)
  | _ => 0
  end.

(** The literal [4.0]. *)
Definition four : spec_float := S754_finite false 4503599627370496 (-50).

End Float64.

(** ** The token estimator (api.py 30-32) *)

Definition count_tokens_roughly (text : pystr) : Z :=
  let char_count := len text in
  Float64.int_of_float
    (Float64.truediv (Float64.float_of_int char_count) Float64.four).

(** ** Messages

    A message is a Python dict [{'role': ..., 'content': ...}].  Dicts are
    mutable objects: the program holds references to them, and the
    truncator rewrites ['content'] in place.  [store] maps each reference
    to the dict it denotes; a conversation is the Python list of
    references. *)
Abbreviation loc := nat.

Record message := { role : pystr; content : pystr }.

Abbreviation store := (loc -> message).

(** [list.pop(i)] for [0 <= i]: the element and the list without it, or
    [IndexError] out of range. *)
Definition pop {A : Type} (i : nat) (l : list A) : result (A * list A) :=
  match l !! i with
  | Some x => Ok (x, delete i l)
  | None => Raise IndexError
  end.

(** [list.insert(i, x)] for [0 <= i]: beyond the end it appends. *)
Definition list_insert_at {A : Type} (i : nat) (x : A) (l : list A) : list A :=
  take i l ++ x :: drop i l.

(** ** The truncator (api.py 35-46) *)

(** Lines 38-39, for one message [m]. *)
Definition cap_content (st : store) (m : loc) : store :=
  if 400 <? len (content (st m))
  then <[m := {| role := role (st m); content := take 400 (content (st m)) |}]> st
  else st.

(** Lines 37-39: the [for] loop. *)
Definition cap_all (st : store) (messages : list loc) : store :=
  foldl cap_content st messages.

(** [sum(count_tokens_roughly(m['content']) for m in messages)]. *)
Definition total_estimated_tokens (st : store) (messages : list loc) : Z :=
  foldl (fun acc m => acc + count_tokens_roughly (content (st m))) 0 messages.

(** The condition of the [while] loop, line 43. *)
Definition loop_cond (st : store) (max_tokens : Z) (messages : list loc) : bool :=
  (max_tokens <? total_estimated_tokens st messages) && (2 <? len messages).

(** A value together with the equation that it is the value of the
    inspected term: keeps the loop condition available where the loop
    recurses. *)
Definition inspect {A : Type} (a : A) : {b : A | a = b} := exist _ a eq_refl.

Section TruncateLoop.

#[local] Notation "x 'eqn:' p" := (exist _ x p) (only parsing, at level 20).

(** Lines 43-45: the [while] loop, on the list of references. *)
Equations? truncate_loop (st : store) (max_tokens : Z) (messages : list loc)
  : result (list loc) by wf (length messages) lt :=
truncate_loop st max_tokens messages with inspect (loop_cond st max_tokens messages) := {
  | true eqn: Hcond with inspect (pop 2 messages) => {
      | Ok (_, messages') eqn: Hpop => truncate_loop st max_tokens messages'
      | Raise e eqn: _ => Raise e }
  | false eqn: _ => Ok messages }.
Proof.
  unfold pop in Hpop. pose proof (lookup_lt_Some messages 2%nat) as Hlt.
  destruct (messages !! 2%nat) as [x|]; [|discriminate].
  injection Hpop as _ <-. specialize (Hlt x eq_refl).
  rewrite length_delete by (apply lookup_lt_is_Some_2; exact Hlt). lia.
Qed.

End TruncateLoop.

(** The function: the contents are the store after the call, the result is
    the returned list (the list passed in, updated). *)
Definition truncate_messages_to_fit_context
    (st : store) (messages : list loc) (max_tokens : Z)
  : store * result (list loc) :=
  let st' := cap_all st messages in
  (st', truncate_loop st' max_tokens messages).

(** The same loop, counting iterations: [None] when [fuel] iterations do
    not reach the exit. *)
Fixpoint truncate_loop_fuel (fuel : nat) (st : store) (max_tokens : Z)
    (messages : list loc) : option (result (list loc)) :=
  if loop_cond st max_tokens messages then
    match pop 2 messages with
    | Ok (_, messages') =>
        match fuel with
        | O => None
        | S fuel' => truncate_loop_fuel fuel' st max_tokens messages'
        end
    | Raise e => Some (Raise e)
    end
  else Some (Ok messages).

(** ** What the engine hands back

    [llm.create_chat_completion] is outside the program: a call returns
    some Python value or raises.  The values are JSON-like; a dict is kept
    as its items in insertion order, a lookup finds the first item with
    the key. *)
#[warnings="-register-all"]
Inductive pyval :=
| PNone
| PInt (n : Z)
| PStr (s : pystr)
| PList (l : list pyval)
| PDict (d : list (pystr * pyval)).

Inductive engine_outcome :=
| Returns (answer : pyval)
| Raises (e : exn).

Fixpoint dict_get (d : list (pystr * pyval)) (key : pystr) : option pyval :=
  match d with
  | [] => None
  | (k, v) :: d' => if bool_decide (k = key) then Some v else dict_get d' key
  end.

(** [for x in v]: the elements of a list, the keys of a dict, the
    characters of a string; anything else is not iterable. *)
Definition py_iter (v : pyval) : result (list pyval) :=
  match v with
  | PList l => Ok l
  | PDict d => Ok ((fun kv => PStr kv.1) <$> d)
  | PStr s => Ok ((fun c => PStr [c]) <$> s)
  | PNone | PInt _ => Raise TypeError
  end.

Fixpoint is_substring (needle s : pystr) : bool :=
  bool_decide (take (length needle) s = needle) ||
  match s with
  | [] => false
  | _ :: s' => is_substring needle s'
  end.

(** [key in v] for a string [key]: a key of a dict, an element of a list,
    a substring of a string; [TypeError] otherwise. *)
Definition py_contains (key : pystr) (v : pyval) : result bool :=
  match v with
  | PDict d => Ok (bool_decide (is_Some (dict_get d key)))
  | PList l =>
      Ok (existsb (fun x => match x with PStr s => bool_decide (s = key) | _ => false end) l)
  | PStr s => Ok (is_substring key s)
  | PNone | PInt _ => Raise TypeError
  end.

(** [v[key]] for a string [key]: only a dict can be indexed by a string. *)
Definition py_getitem (v : pyval) (key : pystr) : result pyval :=
  match v with
  | PDict d =>
      match dict_get d key with
      | Some x => Ok x
      | None => Raise (KeyError key)
      end
  | _ => Raise TypeError
  end.

(** [response += v] for a string [response]. *)
Definition py_iadd_str (response : pystr) (v : pyval) : result pystr :=
  match v with
  | PStr s => Ok (response ++ s)
  | _ => Raise TypeError
  end.

(** Lines 71-73: the [for] loop over the choices. *)
Fixpoint collect_choices (response : pystr) (choices : list pyval) : result pystr :=
  match choices with
  | [] => Ok response
  | choice :: rest =>
      has_message ← py_contains (lit "message") choice;
      response' ←
        (if has_message : bool then
           m ← py_getitem choice (lit "message");
           c ← py_getitem m (lit "content");
           py_iadd_str response c
         else Ok response);
      collect_choices response' rest
  end.

(** Lines 65-74: what the [try] body does with the answer. *)
Definition extract_response (answer : pyval) : result pystr :=
  match answer with
  | PDict d =>
      let response := [] in
      let choices := default (PList []) (dict_get d (lit "choices")) in
      choices ← py_iter choices;
      collect_choices response choices
  | _ => Raise (HTTPException 500 (lit "Unexpected response from model"))
  end.

(** Lines 55-74: the [await] of the engine call raises what the engine
    raised, or the answer is unpacked. *)
Definition engine_result (o : engine_outcome) : result pystr :=
  match o with
  | Returns answer => extract_response answer
  | Raises e => Raise e
  end.

(** ** [asyncio.Future] *)
Inductive Future :=
| Pending
| Cancelled
| Result (r : pystr)
| Exception (e : exn).

Definition cancelled (f : Future) : bool :=
  match f with
  | Cancelled => true
  | _ => false
  end.

(** [cancel()]: only a pending future changes; the flag is the return
    value. *)
Definition cancel (f : Future) : Future * bool :=
  match f with
  | Pending => (Cancelled, true)
  | _ => (f, false)
  end.

(** [set_result] and [set_exception] raise [InvalidStateError] on a future
    that is not pending. *)
Definition set_result (f : Future) (r : pystr) : result Future :=
  match f with
  | Pending => Ok (Result r)
  | _ => Raise InvalidStateError
  end.

Definition set_exception (f : Future) (e : exn) : result Future :=
  match f with
  | Pending => Ok (Exception e)
  | _ => Raise InvalidStateError
  end.

(** ** [asyncio.Queue] *)

(** The dict [{'messages': ..., 'future': ...}] of line 156; the future is
    a reference into the table of futures. *)
Record request_data := { messages : list loc; future : nat }.

Record Queue := {
  maxsize : Z;
  items : list request_data;
  unfinished_tasks : Z }.

Definition new_Queue (maxsize : Z) : Queue :=
  {| maxsize := maxsize; items := []; unfinished_tasks := 0 |}.

Definition qsize (q : Queue) : Z := len (items q).

(** With [maxsize <= 0] the queue is unbounded and never full. *)
Definition full (q : Queue) : bool :=
  if maxsize q <=? 0 then false else maxsize q <=? qsize q.

(** [put_nowait(item)] never waits: it raises [QueueFull] on a full queue,
    and otherwise appends the item and counts one more unfinished task. *)
Definition put_nowait (q : Queue) (item : request_data) : result Queue :=
  if full q then Raise QueueFull
  else Ok {| maxsize := maxsize q;
             items := items q ++ [item];
             unfinished_tasks := unfinished_tasks q + 1 |}.

(** [await queue.get()] when it returns: the oldest item leaves the queue.
    On an empty queue the caller stays suspended ([None]). *)
Definition get (q : Queue) : option (request_data * Queue) :=
  match items q with
  | [] => None
  | item :: rest =>
      Some (item, {| maxsize := maxsize q;
                     items := rest;
                     unfinished_tasks := unfinished_tasks q |})
  end.

(** [task_done()] counts one unfinished task less, and raises
    [ValueError] when called more often than items were put. *)
Definition task_done (q : Queue) : result Queue :=
  if unfinished_tasks q <=? 0 then Raise ValueError
  else Ok {| maxsize := maxsize q;
             items := items q;
             unfinished_tasks := unfinished_tasks q - 1 |}.

(** ** [asyncio.Semaphore]: the number of permits left *)
Abbreviation Semaphore := Z.

(** [acquire()] takes a permit when there is one; with none the caller
    stays suspended ([None]). *)
Definition acquire (sem : Semaphore) : option Semaphore :=
  if 0 <? sem then Some (sem - 1) else None.

Definition release (sem : Semaphore) : Semaphore := sem + 1.

(** ** The request body (data/requests.py) *)
Module requests.

Record ChatMessage := { turn : pystr; message : pystr }.

Record BotProfile := {
  name : pystr;
  appearance : pystr;
  system_prompt : option pystr }.

Module UserProfile.
Record t := { name : pystr }.
End UserProfile.

Record BotMessageRequest := {
  bot_profile : BotProfile;
  user_profile : UserProfile.t;
  context : list ChatMessage }.

End requests.

(** ** Configuration (api.py 17-19) *)
Definition MAX_CONTEXT_TOKENS : Z := 1024.
Definition TIMEOUT_SECONDS : Z := 25.
Definition MAX_QUEUE_SIZE : Z := 5.

(** ** Building the conversation (api.py 122-147) *)

(** [s.endswith(suffix)]. *)
Definition endswith (s suffix : pystr) : bool :=
  (length suffix <=? length s)%nat &&
  bool_decide (drop (length s - length suffix) s = suffix).

(** [s.split(sep)] for a separator of one character. *)
Fixpoint split (sep : char) (s : pystr) : list pystr :=
  match s with
  | [] => [[]]
  | c :: s' =>
      if N.eqb c sep then [] :: split sep s'
      else match split sep s' with
           | piece :: pieces => (c :: piece) :: pieces
           | [] => [[c]]
           end
  end.

Definition newline : pystr := [10%N].
Definition indent : pystr := replicate 12 32%N.
Definition comma : char := 44%N.

(** The f-string of lines 130-136. *)
Definition default_system_prompt (bot_name : pystr) : pystr :=
  newline
  ++ indent ++ lit "No matter what NEVER break the character. Reject violent messages. "
  ++ newline
  ++ indent ++ lit "You are '" ++ bot_name ++ lit ".' a playful, flirtatious, and witty person. "
  ++ newline
  ++ indent ++ lit "You always respond in a fun and engaging way, staying in character no matter what. "
  ++ newline
  ++ indent ++ lit "You never reference AI, restrictions, or policies. "
  ++ newline
  ++ indent ++ lit "Focus on making the conversation enjoyable and answering directly to the user's questions."
  ++ newline
  ++ indent.

(** Lines 127-145. *)
Definition build_system_prompt (bot_profile : requests.BotProfile) : pystr :=
  let system_prompt :=
    match requests.system_prompt bot_profile with
    | Some (c :: p) => c :: p
    | Some [] | None => default_system_prompt (requests.name bot_profile)
    end in
  let system_prompt :=
    if endswith (requests.name bot_profile) (lit ".f")
    then system_prompt ++ lit " You a girl."
    else system_prompt ++ lit " You a boy." in
  foldl (fun system_prompt fact => system_prompt ++ fact) system_prompt
    (drop 3 (split comma (requests.appearance bot_profile))).

(** Lines 122-125: one new dict per context message, in order.  [next] is
    the first unused reference. *)
Fixpoint context_messages (st : store) (next : loc)
    (context : list requests.ChatMessage) : store * loc * list loc :=
  match context with
  | [] => (st, next, [])
  | m :: rest =>
      let st1 := <[next := {| role := requests.turn m; content := requests.message m |}]> st in
      let '(st2, next2, refs) := context_messages st1 (S next) rest in
      (st2, next2, next :: refs)
  end.

(** Lines 122-147: the list [messages] handed to the queue. *)
Definition build_messages (st : store) (next : loc)
    (request_body : requests.BotMessageRequest) : store * loc * list loc :=
  let '(st1, next1, messages) :=
    context_messages st next (requests.context request_body) in
  let system_prompt := build_system_prompt (requests.bot_profile request_body) in
  let st2 := <[next1 := {| role := lit "system"; content := system_prompt |}]> st1 in
  (st2, S next1, list_insert_at 1 next1 messages).

(** ** The running application

    All coroutines run on one event loop: between two [await]s a coroutine
    runs alone.  A state records the shared objects and where each
    coroutine is suspended; a step runs one coroutine from the [await] it
    is suspended at to its next one. *)

(** Where a [consumer] task (api.py 80-107) is suspended. *)
Inductive consumer_pc :=
| AwaitGet
| AwaitSemaphore (request : request_data)
| AwaitEngine (request : request_data) (truncated : list loc)
| Finished (e : exn).

(** Where a call of [generate_response] is suspended, or what it
    produced: [Ok response] is the body [{"response": response}], [Raise e]
    the exception that left the handler (an [HTTPException] becomes the
    error response of that status). *)
Inductive handler_pc :=
| Awaiting (fut : nat)
| Returned (r : result pystr).

Record State := {
  objects : store;
  next_object : loc;
  futures : nat -> Future;
  next_future : nat;
  queue : Queue;
  semaphore : Semaphore;
  consumers : list consumer_pc;
  handlers : list handler_pc }.

Definition with_objects (s : State) (st : store) (next : loc) : State :=
  {| objects := st; next_object := next; futures := futures s;
     next_future := next_future s; queue := queue s; semaphore := semaphore s;
     consumers := consumers s; handlers := handlers s |}.

Definition with_futures (s : State) (fs : nat -> Future) (next : nat) : State :=
  {| objects := objects s; next_object := next_object s; futures := fs;
     next_future := next; queue := queue s; semaphore := semaphore s;
     consumers := consumers s; handlers := handlers s |}.

Definition with_queue (s : State) (q : Queue) : State :=
  {| objects := objects s; next_object := next_object s; futures := futures s;
     next_future := next_future s; queue := q; semaphore := semaphore s;
     consumers := consumers s; handlers := handlers s |}.

Definition with_semaphore (s : State) (sem : Semaphore) : State :=
  {| objects := objects s; next_object := next_object s; futures := futures s;
     next_future := next_future s; queue := queue s; semaphore := sem;
     consumers := consumers s; handlers := handlers s |}.

Definition with_consumers (s : State) (cs : list consumer_pc) : State :=
  {| objects := objects s; next_object := next_object s; futures := futures s;
     next_future := next_future s; queue := queue s; semaphore := semaphore s;
     consumers := cs; handlers := handlers s |}.

Definition with_handlers (s : State) (hs : list handler_pc) : State :=
  {| objects := objects s; next_object := next_object s; futures := futures s;
     next_future := next_future s; queue := queue s; semaphore := semaphore s;
     consumers := consumers s; handlers := hs |}.

Definition set_consumer (s : State) (c : nat) (pc : consumer_pc) : State :=
  with_consumers s (<[c := pc]> (consumers s)).

Definition set_future (s : State) (fut : nat) (f : Future) : State :=
  with_futures s (<[fut := f]> (futures s)) (next_future s).

(** [startup_event] (api.py 110-116): the queue, the semaphore and one
    consumer task, which first suspends in [queue.get()]. *)
Definition startup_event : State :=
  {| objects := fun _ => {| role := []; content := [] |};
     next_object := 0%nat;
     futures := fun _ => Pending;
     next_future := 0%nat;
     queue := new_Queue MAX_QUEUE_SIZE;
     semaphore := 1;
     consumers := [AwaitGet];
     handlers := [] |}.

(** Lines 95-105 on the future alone: the [try] body once
    [try_to_truncate_and_generate] has returned or raised [r], then the
    [except] clause.  The second component is the exception still in
    flight afterwards, if any. *)
Definition write_outcome (f : Future) (r : result pystr) : Future * option exn :=
  let after_try : Future * option exn :=
    match r with
    | Ok response =>
        if negb (cancelled f) then
          match set_result f response with
          | Ok f' => (f', None)
          | Raise e => (f, Some e)
          end
        else (f, None)
    | Raise e => (f, Some e)
    end in
  match after_try with
  | (f1, None) => (f1, None)
  | (f1, Some e) =>
      if is_Exception e then
        if negb (cancelled f1) then
          match set_exception f1 e with
          | Ok f2 => (f2, None)
          | Raise e' => (f1, Some e')
          end
        else (f1, None)
      else (f1, Some e)
  end.

(** Lines 95-107: the rest of the iteration for item [rd], with the
    [finally] clause; then the task is back at [queue.get()], or over when
    an exception leaves the loop. *)
Definition complete_item (s : State) (c : nat) (rd : request_data)
    (r : result pystr) : State :=
  let '(f, in_flight) := write_outcome (futures s (future rd)) r in
  let s1 := set_future s (future rd) f in
  match task_done (queue s1) with
  | Raise e => set_consumer s1 c (Finished e)
  | Ok q =>
      let s2 := with_queue s1 q in
      match in_flight with
      | None => set_consumer s2 c AwaitGet
      | Some e => set_consumer s2 c (Finished e)
      end
  end.

Section Application.

Context {runtime : PyRuntime}.

(** Lines 76-78: the [except] clause of [try_to_truncate_and_generate]. *)
Definition generation_error (r : result pystr) : result pystr :=
  match r with
  | Ok response => Ok response
  | Raise e =>
      if is_Exception e
      then Raise (HTTPException 500
                    (lit "Error during message generation: " ++ str_exn e))
      else Raise e
  end.

(** Lines 48-63, entered with the permit taken: truncate, then start the
    engine call on its thread and suspend.  Were the truncator to raise,
    no call is made: the [except] clause runs and the permit goes back. *)
Definition start_generation (s : State) (c : nat) (rd : request_data) : State :=
  let '(st, r) :=
    truncate_messages_to_fit_context (objects s) (messages rd) MAX_CONTEXT_TOKENS in
  let s1 := with_objects s st (next_object s) in
  match r with
  | Ok truncated => set_consumer s1 c (AwaitEngine rd truncated)
  | Raise e =>
      complete_item (with_semaphore s1 (release (semaphore s1))) c rd
        (generation_error (Raise e))
  end.

(** Lines 85-96: [queue.get()] returns [rd]; a cancelled item is skipped,
    otherwise the consumer asks for the permit. *)
Definition dequeue (s : State) (c : nat) : option State :=
  match consumers s !! c, get (queue s) with
  | Some AwaitGet, Some (rd, q) =>
      let s1 := with_queue s q in
      if cancelled (futures s1 (future rd)) then
        match task_done (queue s1) with
        | Ok q' => Some (with_queue s1 q')
        | Raise e => Some (set_consumer s1 c (Finished e))
        end
      else
        match acquire (semaphore s1) with
        | Some sem => Some (start_generation (with_semaphore s1 sem) c rd)
        | None => Some (set_consumer s1 c (AwaitSemaphore rd))
        end
  | _, _ => None
  end.

(** Line 50, for a consumer that had to wait for the permit. *)
Definition acquire_permit (s : State) (c : nat) : option State :=
  match consumers s !! c with
  | Some (AwaitSemaphore rd) =>
      sem ← acquire (semaphore s);
      Some (start_generation (with_semaphore s sem) c rd)
  | _ => None
  end.

(** Lines 55-107: the engine call of consumer [c] is over with outcome
    [o]; the answer is unpacked, the permit released, the outcome written
    to the future unless it is cancelled. *)
Definition engine_done (s : State) (c : nat) (o : engine_outcome) : option State :=
  match consumers s !! c with
  | Some (AwaitEngine rd _) =>
      let r := generation_error (engine_result o) in
      Some (complete_item (with_semaphore s (release (semaphore s))) c rd r)
  | _ => None
  end.

(** Lines 166-173: the [except] clauses of the handler, for an exception
    [e] raised by the [await]. *)
Definition handler_except (s : State) (fut : nat) (e : exn) : State * result pystr :=
  match e with
  | TimeoutError =>
      let s1 := set_future s fut (cancel (futures s fut)).1 in
      (s1, Raise (HTTPException 408 (lit "Generation timed out")))
  | _ =>
      if is_Exception e
      then (s, Raise (HTTPException 500
                        (lit "Internal server error: " ++ str_exn e)))
      else (s, Raise e)
  end.

Definition set_handler (s : State) (h : nat) (r : result pystr) : State :=
  with_handlers s (<[h := Returned r]> (handlers s)).

(** Lines 119-160: a request arrives; the handler runs up to its [await],
    or ends at once when the queue is full. *)
Definition arrive (s : State) (request_body : requests.BotMessageRequest) : State :=
  let '(st, next, messages) :=
    build_messages (objects s) (next_object s) request_body in
  let fut := next_future s in
  let s1 :=
    with_futures (with_objects s st next) (<[fut := Pending]> (futures s)) (S fut) in
  let request_data := {| messages := messages; future := fut |} in
  match put_nowait (queue s1) request_data with
  | Ok q => with_handlers (with_queue s1 q) (handlers s1 ++ [Awaiting fut])
  | Raise QueueFull =>
      with_handlers s1
        (handlers s1 ++
           [Returned (Raise (HTTPException 503
                               (lit "Server too busy. Please try again later.")))])
  | Raise e => with_handlers s1 (handlers s1 ++ [Returned (Raise e)])
  end.

(** Lines 162-165 and the [except] clauses: the awaited future is done. *)
Definition deliver (s : State) (h : nat) : option State :=
  match handlers s !! h with
  | Some (Awaiting fut) =>
      match futures s fut with
      | Pending => None
      | Result response => Some (set_handler s h (Ok response))
      | Exception e =>
          let '(s1, r) := handler_except s fut e in Some (set_handler s1 h r)
      | Cancelled =>
          let '(s1, r) := handler_except s fut CancelledError in
          Some (set_handler s1 h r)
      end
  | _ => None
  end.

(** Lines 164-170: the deadline passes with the future still pending;
    [wait_for] cancels the future and raises [TimeoutError]. *)
Definition deadline (s : State) (h : nat) : option State :=
  match handlers s !! h with
  | Some (Awaiting fut) =>
      match futures s fut with
      | Pending =>
          let s1 := set_future s fut (cancel (futures s fut)).1 in
          let '(s2, r) := handler_except s1 fut TimeoutError in
          Some (set_handler s2 h r)
      | _ => None
      end
  | _ => None
  end.

(** What can happen next. *)
Inductive label :=
| Arrive (request_body : requests.BotMessageRequest)
| Dequeue (c : nat)
| AcquirePermit (c : nat)
| EngineDone (c : nat) (o : engine_outcome)
| Deliver (h : nat)
| Deadline (h : nat).

Definition step (l : label) (s : State) : option State :=
  match l with
  | Arrive request_body => Some (arrive s request_body)
  | Dequeue c => dequeue s c
  | AcquirePermit c => acquire_permit s c
  | EngineDone c o => engine_done s c o
  | Deliver h => deliver s h
  | Deadline h => deadline s h
  end.

Fixpoint exec (ls : list label) (s : State) : option State :=
  match ls with
  | [] => Some s
  | l :: ls' => s' ← step l s; exec ls' s'
  end.

(** The states of the application, from startup on. *)
Definition reachable (s : State) : Prop :=
  exists ls, exec ls startup_event = Some s.

(** The engine calls in flight: the consumers suspended in one. *)
Definition in_engine (pc : consumer_pc) : bool :=
  match pc with
  | AwaitEngine _ _ => true
  | _ => false
  end.

Definition count_in_engine (cs : list consumer_pc) : Z :=
  len (filter (fun pc => in_engine pc = true) cs).

Definition calls_in_flight (s : State) : Z := count_in_engine (consumers s).

End Application.

(** A runtime to evaluate with.  [str] of an [HTTPException] is
    "<status_code>: <detail>", as Starlette defines it; of a [KeyError] it
    is the [repr] of the key, which for a key without quotes or escapes is
    the key between single quotes; of an exception that carries a text it
    is that text.  For the classes the model carries no text of it is the
    empty text here. *)
Definition sample_runtime : PyRuntime :=
  {| str_exn := fun e =>
       match e with
       | HTTPException status_code detail =>
           lit (NilZero.string_of_int (Z.to_int status_code)) ++ lit ": " ++ detail
       | KeyError key => lit "'" ++ key ++ lit "'"
       | OtherException what | OtherBaseException what => what
       | _ => []
       end |}.

(** ** Notions used in the statements *)

(** The item a consumer holds. *)
Definition held (pc : consumer_pc) : list request_data :=
  match pc with
  | AwaitSemaphore rd | AwaitEngine rd _ => [rd]
  | AwaitGet | Finished _ => []
  end.

(** The items put and not yet done: queued, or held by a consumer. *)
Definition live_items (s : State) : list request_data :=
  items (queue s) ++ (consumers s ≫= held).

(** The permit is out exactly while an engine call is in flight. *)
Definition gate_ok (s : State) : Prop :=
  0 <= semaphore s /\ semaphore s + calls_in_flight s = 1.

(** The queue's count of unfinished tasks is the number of live items;
    live items have distinct futures, created earlier, none of them
    resolved or failed yet. *)
Record items_ok (s : State) : Prop := {
  tasks : unfinished_tasks (queue s) = len (live_items s);
  distinct : NoDup (future <$> live_items s);
  allocated : forall rd, rd ∈ live_items s -> (future rd < next_future s)%nat;
  undecided : forall rd, rd ∈ live_items s ->
    futures s (future rd) = Pending \/ futures s (future rd) = Cancelled }.

(** A suspended handler waits on a future created earlier. *)
Definition handlers_ok (s : State) : Prop :=
  forall h fut, handlers s !! h = Some (Awaiting fut) -> (fut < next_future s)%nat.

(** What every state of the application satisfies (lemma
    [reachable_consistent]). *)
Definition consistent (s : State) : Prop :=
  gate_ok s /\ items_ok s /\ handlers_ok s.

(** The engine call fails with [e]: the engine raised the [Exception] [e],
    or unpacking its answer raised [e]. *)
Inductive engine_failure : engine_outcome -> exn -> Prop :=
| engine_raised (e : exn) :
    is_Exception e = true -> engine_failure (Raises e) e
| answer_rejected (answer : pyval) (e : exn) :
    extract_response answer = Raise e -> engine_failure (Returns answer) e.

(** An outcome that is not a bare [BaseException]. *)
Definition ordinary (o : engine_outcome) : bool :=
  match o with
  | Returns _ => true
  | Raises e => is_Exception e
  end.

(** ** Sample data *)

Definition sample_request (n : nat) : requests.BotMessageRequest :=
  {| requests.bot_profile :=
       {| requests.name := lit "Ann.f";
          requests.appearance := lit "tall,slim,blond,green eyes";
          requests.system_prompt := None |};
     requests.user_profile := {| requests.UserProfile.name := lit "Bob" |};
     requests.context :=
       replicate n {| requests.turn := lit "user"; requests.message := lit "hi" |} |}.

Definition sample_answer : pyval :=
  PDict [(lit "choices",
          PList [PDict [(lit "message", PDict [(lit "content", PStr (lit "hello"))])]])].

(** A request has arrived and the consumer has taken it: its engine call
    is in flight, its handler waits on future 0. *)
Definition sample_item : request_data :=
  {| messages := [0; 3; 1; 2]%nat; future := 0%nat |}.

Definition state_busy : State :=
  default startup_event
    (exec (runtime := sample_runtime)
       [Arrive (sample_request 3); Dequeue 0%nat] startup_event).

(** From there, the deadline of handler 0 has passed. *)
Definition state_timed_out : State :=
  default startup_event (step (runtime := sample_runtime) (Deadline 0%nat) state_busy).

(** Then the engine call returns all the same. *)
Definition state_late_answer : State :=
  default startup_event
    (exec (runtime := sample_runtime)
       [EngineDone 0%nat (Returns sample_answer)] state_timed_out).

(** Five requests are queued and none is taken. *)
Definition state_full : State :=
  default startup_event
    (exec (runtime := sample_runtime)
       (replicate 5 (Arrive (sample_request 1))) startup_event).

(** ** Notions used by the properties of Part II *)

(** The text a choice contributes to the response (lines 71-73): nothing
    without a 'message', else the 'content' of its 'message'. *)
Inductive choice_text : pyval -> pystr -> Prop :=
| choice_skipped d :
    dict_get d (lit "message") = None -> choice_text (PDict d) []
| choice_taken d m c :
    dict_get d (lit "message") = Some (PDict m) ->
    dict_get m (lit "content") = Some (PStr c) ->
    choice_text (PDict d) c.

(** The same profile with an empty appearance. *)
Definition without_appearance (bot_profile : requests.BotProfile) : requests.BotProfile :=
  {| requests.name := requests.name bot_profile;
     requests.appearance := [];
     requests.system_prompt := requests.system_prompt bot_profile |}.

(** The prompt before the gender sentence: the one of the request unless
    it is absent or empty. *)
Definition base_prompt (bot_profile : requests.BotProfile) : pystr :=
  match requests.system_prompt bot_profile with
  | Some (c :: p) => c :: p
  | Some [] | None => default_system_prompt (requests.name bot_profile)
  end.

(** The queue with other items and another count of unfinished tasks. *)
Definition requeue (q : Queue) (its : list request_data) (unfinished : Z) : Queue :=
  {| maxsize := maxsize q; items := its; unfinished_tasks := unfinished |}.

Section StepShapes.
Context {runtime : PyRuntime}.

(** What a step does, case by case, in a consistent state. *)
Inductive step_shape (s : State) : label -> State -> Prop :=
| shape_queued request_body st next msgs :
    build_messages (objects s) (next_object s) request_body = (st, next, msgs) ->
    full (queue s) = false ->
    step_shape s (Arrive request_body)
      (with_handlers
         (with_queue
            (with_futures (with_objects s st next)
               (<[next_future s := Pending]> (futures s)) (S (next_future s)))
            {| maxsize := maxsize (queue s);
               items := items (queue s)
                        ++ [{| messages := msgs; future := next_future s |}];
               unfinished_tasks := unfinished_tasks (queue s) + 1 |})
         (handlers s ++ [Awaiting (next_future s)]))
| shape_rejected request_body st next msgs :
    build_messages (objects s) (next_object s) request_body = (st, next, msgs) ->
    full (queue s) = true ->
    step_shape s (Arrive request_body)
      (with_handlers
         (with_futures (with_objects s st next)
            (<[next_future s := Pending]> (futures s)) (S (next_future s)))
         (handlers s ++
            [Returned (Raise (HTTPException 503
                                (lit "Server too busy. Please try again later.")))]))
| shape_skipped c rd rest :
    consumers s !! c = Some AwaitGet ->
    items (queue s) = rd :: rest ->
    futures s (future rd) = Cancelled ->
    step_shape s (Dequeue c) (with_queue s (requeue (queue s) rest (unfinished_tasks (queue s) - 1)))
| shape_started c rd rest out :
    consumers s !! c = Some AwaitGet ->
    items (queue s) = rd :: rest ->
    cancelled (futures s (future rd)) = false ->
    0 < semaphore s ->
    truncate_messages_to_fit_context (objects s) (messages rd) MAX_CONTEXT_TOKENS
      = (cap_all (objects s) (messages rd), Ok out) ->
    step_shape s (Dequeue c)
      (set_consumer
         (with_objects
            (with_semaphore (with_queue s (requeue (queue s) rest (unfinished_tasks (queue s))))
               (semaphore s - 1))
            (cap_all (objects s) (messages rd)) (next_object s))
         c (AwaitEngine rd out))
| shape_waiting c rd rest :
    consumers s !! c = Some AwaitGet ->
    items (queue s) = rd :: rest ->
    cancelled (futures s (future rd)) = false ->
    semaphore s <= 0 ->
    step_shape s (Dequeue c)
      (set_consumer (with_queue s (requeue (queue s) rest (unfinished_tasks (queue s)))) c (AwaitSemaphore rd))
| shape_resumed c rd out :
    consumers s !! c = Some (AwaitSemaphore rd) ->
    0 < semaphore s ->
    truncate_messages_to_fit_context (objects s) (messages rd) MAX_CONTEXT_TOKENS
      = (cap_all (objects s) (messages rd), Ok out) ->
    step_shape s (AcquirePermit c)
      (set_consumer
         (with_objects (with_semaphore s (semaphore s - 1))
            (cap_all (objects s) (messages rd)) (next_object s))
         c (AwaitEngine rd out))
| shape_completed c rd t o f in_flight :
    consumers s !! c = Some (AwaitEngine rd t) ->
    futures s (future rd) = Pending \/ futures s (future rd) = Cancelled ->
    write_outcome (futures s (future rd)) (generation_error (engine_result o))
      = (f, in_flight) ->
    step_shape s (EngineDone c o)
      (set_consumer
         (with_queue
            (set_future (with_semaphore s (semaphore s + 1)) (future rd) f)
            (requeue (queue s) (items (queue s)) (unfinished_tasks (queue s) - 1)))
         c
         match in_flight with
         | None => AwaitGet
         | Some e => Finished e
         end)
| shape_delivered h fut response :
    handlers s !! h = Some (Awaiting fut) ->
    futures s fut = Result response ->
    step_shape s (Deliver h) (set_handler s h (Ok response))
| shape_failed h fut e :
    handlers s !! h = Some (Awaiting fut) ->
    futures s fut = Exception e \/ (futures s fut = Cancelled /\ e = CancelledError) ->
    step_shape s (Deliver h)
      (set_handler (handler_except s fut e).1 h (handler_except s fut e).2)
| shape_timed_out h fut :
    handlers s !! h = Some (Awaiting fut) ->
    futures s fut = Pending ->
    step_shape s (Deadline h)
      (set_handler (set_future (set_future s fut Cancelled) fut Cancelled) h
         (Raise (HTTPException 408 (lit "Generation timed out")))).

End StepShapes.

(** What the single consumer task can be doing: it never has to wait for
    the permit, and it is over only by something that is no [Exception]. *)
Definition serving (pc : consumer_pc) : Prop :=
  match pc with
  | AwaitGet | AwaitEngine _ _ => True
  | AwaitSemaphore _ => False
  | Finished e => is_Exception e = false
  end.

(** What a handler may answer: a response, or one of three status codes. *)
Definition reply_ok (r : result pystr) : Prop :=
  match r with
  | Ok _ => True
  | Raise (HTTPException code _) => code = 408 \/ code = 500 \/ code = 503
  | Raise _ => False
  end.

(** A future fails only with the 500 of [try_to_truncate_and_generate];
    a waiting handler's future is not cancelled and is awaited by that
    handler alone; a handler that returned gave an answer as above. *)
Record replies_ok (s : State) : Prop := {
  failures : forall fut e, futures s fut = Exception e ->
    exists detail, e = HTTPException 500 detail;
  awaited_live : forall h fut, handlers s !! h = Some (Awaiting fut) ->
    futures s fut <> Cancelled;
  awaited_once : forall h1 h2 fut,
    handlers s !! h1 = Some (Awaiting fut) -> handlers s !! h2 = Some (Awaiting fut) ->
    h1 = h2;
  answered : forall h r, handlers s !! h = Some (Returned r) -> reply_ok r }.

(** A step in which the engine, if it ends, returns or raises an
    [Exception]. *)
Definition ordinary_label (l : label) : Prop :=
  match l with
  | EngineDone _ o => ordinary o = true
  | _ => True
  end.

(** The messages of live items exist, no two live items share a message,
    and what an engine call was given is within the limits. *)
Record inputs_ok (s : State) : Prop := {
  owned : forall rd m, rd ∈ live_items s -> m ∈ messages rd ->
    (m < next_object s)%nat;
  separate : forall rd1 rd2 m, rd1 ∈ live_items s -> rd2 ∈ live_items s ->
    m ∈ messages rd1 -> m ∈ messages rd2 -> rd1 = rd2;
  engine_input : forall c rd t, consumers s !! c = Some (AwaitEngine rd t) ->
    (exists k, t = take 2 (messages rd) ++ drop (2 + k) (messages rd))
    /\ (forall m, m ∈ messages rd -> len (content (objects s m)) <= 400)
    /\ 0 <= total_estimated_tokens (objects s) t <= MAX_CONTEXT_TOKENS }.

(** ** More sample data *)

Definition sample_profile_short : requests.BotProfile :=
  {| requests.name := lit "Tom";
     requests.appearance := lit "tall,slim,blond";
     requests.system_prompt := Some (lit "Be kind.") |}.

(** The consumer has taken the first of five queued requests. *)
Definition state_full_serving : State :=
  default startup_event (step (runtime := sample_runtime) (Dequeue 0%nat) state_full).

(** The engine call of [state_busy] was cancelled: the consumer task is over. *)
Definition state_consumer_ended : State :=
  default startup_event
    (step (runtime := sample_runtime) (EngineDone 0%nat (Raises CancelledError)) state_busy).

(** A request timed out while it was still queued. *)
Definition state_cancelled_in_queue : State :=
  default startup_event
    (exec (runtime := sample_runtime)
       [Arrive (sample_request 1); Deadline 0%nat] startup_event).

(** An answer of three choices, the second without a 'message'. *)
Definition sample_answer_three : pyval :=
  PDict [(lit "choices",
          PList [PDict [(lit "message", PDict [(lit "content", PStr (lit "hel"))])];
                 PDict [(lit "index", PStr (lit "1"))];
                 PDict [(lit "message", PDict [(lit "content", PStr (lit "lo"))])]])].

(** Two requests served one after the other: the first engine call
    raises an [Exception], the second returns an answer. *)
Definition ordinary_run : list label :=
  [Arrive (sample_request 3); Dequeue 0%nat;
   EngineDone 0%nat (Raises (OtherException (lit "out of memory")));
   Arrive (sample_request 1); Dequeue 0%nat;
   EngineDone 0%nat (Returns sample_answer)].

Definition state_after_ordinary_run : State :=
  default startup_event (exec (runtime := sample_runtime) ordinary_run startup_event).

(** * Part II: properties *)

(** ** Binary64: integers below 2^53 divide by four exactly *)
Section Float64Facts.

Import Float64.

Lemma four_is_float_of_4 : float_of_int 4 = four.
Proof. reflexivity. Qed.

Lemma digits2_pos_size p : digits2_pos p = Pos.size p.
Proof. induction p as [p IH|p IH|]; simpl; congruence. Qed.

Lemma digits2_lower p : 2 ^ (Zpos (digits2_pos p) - 1) <= Zpos p.
Proof.
  rewrite digits2_pos_size.
  pose proof (Pos.size_le p) as H.
  assert (Hp : Zpos (2 ^ Pos.size p) = 2 ^ Zpos (Pos.size p))
    by apply Pos2Z.inj_pow.
  assert (H2 : 2 ^ Zpos (Pos.size p) = 2 * 2 ^ (Zpos (Pos.size p) - 1)).
  { rewrite <- Z.pow_succ_r by lia. f_equal. lia. }
  assert (Zpos (2 ^ Pos.size p) <= Zpos (p~0)) by (apply Pos2Z.pos_le_pos; exact H).
  lia.
Qed.

Lemma digits2_bound p n : 0 <= n -> Zpos p < 2 ^ n -> Zpos (digits2_pos p) <= n.
Proof.
  intros Hn Hp. pose proof (digits2_lower p) as Hl.
  destruct (Z_le_gt_dec (Zpos (digits2_pos p)) n) as [|Hgt]; [assumption|].
  exfalso.
  assert (2 ^ n <= 2 ^ (Zpos (digits2_pos p) - 1)) by (apply Z.pow_le_mono_r; lia).
  lia.
Qed.

Lemma iter_xO_value p q : Zpos (Pos.iter xO p q) = Zpos p * 2 ^ Zpos q.
Proof.
  induction q as [|q IH] using Pos.peano_ind.
  - simpl. lia.
  - rewrite Pos.iter_succ, Pos2Z.inj_xO, IH, Pos2Z.inj_succ, Z.pow_succ_r by lia.
    lia.
Qed.

Lemma iter_xO_digits p q :
  Zpos (digits2_pos (Pos.iter xO p q)) = Zpos (digits2_pos p) + Zpos q.
Proof.
  induction q as [|q IH] using Pos.peano_ind.
  - simpl. lia.
  - rewrite Pos.iter_succ. simpl digits2_pos. rewrite Pos2Z.inj_succ, IH. lia.
Qed.

(** A mantissa of 53 bits with an exponent in the normal range is left as
    it is by rounding. *)
Lemma round_aux_exact s m e :
  Zpos (digits2_pos m) = 53 -> -1074 <= e <= 971 ->
  binary_round_aux 53 1024 s (Zpos m) e loc_Exact = S754_finite s m e.
Proof.
  intros Hd He. unfold binary_round_aux, shr_fexp, fexp, emin.
  cbn [Zdigits2 shr_record_of_loc]. rewrite Hd.
  replace (Z.max (53 + e - 53) (3 - 1024 - 53) - e) with 0 by lia.
  cbn [shr shr_m loc_of_shr_record round_nearest_even Zdigits2 shr_record_of_loc].
  rewrite Hd.
  replace (Z.max (53 + e - 53) (3 - 1024 - 53) - e) with 0 by lia.
  cbn [shr shr_m].
  destruct (Z.leb_spec e (1024 - 53)); [reflexivity | lia].
Qed.

(** A mantissa of 54 bits whose last bit is 0 loses that bit, exactly. *)
Lemma round_aux_shift1 s m e :
  Zpos (digits2_pos m) = 53 -> -1075 <= e <= 970 ->
  binary_round_aux 53 1024 s (Zpos m~0) e loc_Exact = S754_finite s m (e + 1).
Proof.
  intros Hd He. unfold binary_round_aux, shr_fexp, fexp, emin.
  cbn [Zdigits2 shr_record_of_loc digits2_pos]. rewrite Pos2Z.inj_succ, Hd.
  replace (Z.max (Z.succ 53 + e - 53) (3 - 1024 - 53) - e) with 1 by lia.
  cbn [shr SpecFloat.iter_pos shr_1 shr_m loc_of_shr_record round_nearest_even
         Zdigits2 shr_record_of_loc orb].
  rewrite Hd.
  replace (Z.max (53 + (e + 1) - 53) (3 - 1024 - 53) - (e + 1)) with 0 by lia.
  cbn [shr shr_m].
  destruct (Z.leb_spec (e + 1) (1024 - 53)); [reflexivity | lia].
Qed.

(** [float(n)] is exact below 2^53: the mantissa is [n] shifted left to 53
    bits. *)
Lemma float_of_int_small p :
  Zpos p < 2 ^ 53 ->
  exists m k, float_of_int (Zpos p) = S754_finite false m (- k)
    /\ 0 <= k <= 52 /\ Zpos (digits2_pos m) = 53 /\ Zpos m = Zpos p * 2 ^ k.
Proof.
  intros Hp.
  pose proof (digits2_bound p 53 ltac:(lia) Hp) as Hd.
  unfold float_of_int, binary_normalize, binary_round, shl_align, fexp, emin, prec, emax.
  assert (Hf : Z.max (Zpos (digits2_pos p) + 0 - 53) (3 - 1024 - 53)
               = Zpos (digits2_pos p) - 53) by lia.
  rewrite Hf.
  destruct (Zpos (digits2_pos p) - 53 - 0) as [|q|q] eqn:Hq.
  - exists p, 0.
    rewrite (round_aux_exact false p 0) by lia.
    repeat split; lia.
  - lia.
  - exists (Pos.iter xO p q), (Zpos q).
    replace (Zpos (digits2_pos p) - 53) with (- Zpos q) by lia.
    assert (Hd' : Zpos (digits2_pos (Pos.iter xO p q)) = 53)
      by (rewrite iter_xO_digits; lia).
    rewrite round_aux_exact by lia.
    repeat split; try lia. apply iter_xO_value.
Qed.

(** Dividing a normal double by [4.0] lowers the exponent by 2. *)
Lemma truediv_four m e :
  Zpos (digits2_pos m) = 53 -> -52 <= e <= 0 ->
  truediv (S754_finite false m e) four = S754_finite false m (e - 2).
Proof.
  intros Hd He. unfold truediv, four, SFdiv, SFdiv_core_binary, fexp, emin, prec, emax.
  cbn [Zdigits2 xorb]. rewrite Hd.
  change (Zpos (digits2_pos 4503599627370496)) with 53.
  replace (Z.min (Z.max (53 + e - (53 + -50) - 53) (3 - 1024 - 53)) (e - -50))
    with (e - 3) by lia.
  replace (e - -50 - (e - 3)) with 53 by lia.
  assert (Hq : Z.div_eucl (Z.shiftl (Zpos m) 53) 4503599627370496 = (Zpos m~0, 0)).
  { rewrite Z.shiftl_mul_pow2 by lia.
    pose proof (Z_div_mod (Zpos m * 2 ^ 53) 4503599627370496 ltac:(lia)) as H.
    destruct (Z.div_eucl (Zpos m * 2 ^ 53) 4503599627370496) as [q r].
    destruct H as [H1 H2]. change (2 ^ 53) with 9007199254740992 in H1.
    f_equal; lia. }
  rewrite Hq. change (new_location 4503599627370496 0) with loc_Exact.
  rewrite round_aux_shift1 by lia. f_equal. lia.
Qed.

Lemma estimate_small n :
  0 <= n < 2 ^ 53 ->
  int_of_float (truediv (float_of_int n) four) = n / 4.
Proof.
  intros [H0 Hn]. destruct n as [|p|p]; [reflexivity| |lia].
  destruct (float_of_int_small p Hn) as (m & k & -> & Hk & Hd & Hm).
  rewrite truediv_four by lia. cbn [int_of_float cond_Zopp].
  rewrite Z.shiftl_div_pow2 by lia. rewrite Hm.
  replace (- (- k - 2)) with (k + 2) by lia.
  rewrite Z.pow_add_r by lia. change (2 ^ 2) with 4.
  rewrite Z.mul_comm, Z.div_mul_cancel_l by lia. reflexivity.
Qed.

End Float64Facts.

Lemma len_nonneg {A : Type} (l : list A) : 0 <= len l.
Proof. unfold len. lia. Qed.

Lemma len_replicate {A : Type} (n : Z) (x : A) :
  0 <= n -> len (replicate (Z.to_nat n) x) = n.
Proof. intros Hn. unfold len. rewrite length_replicate. apply Z2Nat.id. exact Hn. Qed.

(** C8: the estimator returns exactly floor(len(text) / 4) for every
    text of fewer than 2^53 code points: up to there the conversion of the
    length to a double is exact, and so is the division by 4.0.  The bound
    leaves out no text the program can be given: a [str] of 2^53 code
    points takes 8 PiB or more, and the truncator, the only caller, passes
    contents of at most 400 characters (lemma
    [estimate_of_capped_content]). *)
Theorem count_tokens_roughly_is_floor_div (text : pystr) :
  len text < 2 ^ 53 -> count_tokens_roughly text = len text / 4.
Proof.
  intros H. unfold count_tokens_roughly. apply estimate_small.
  split; [apply len_nonneg|exact H].
Qed.

Lemma count_tokens_roughly_is_floor_div_witness :
  len (lit "hello world") < 2 ^ 53 /\ count_tokens_roughly (lit "hello world") = 2.
Proof.
  split; [reflexivity|].
  exact (count_tokens_roughly_is_floor_div (lit "hello world") eq_refl).
Defined.

(** The texts of the model are lists of any length, and there the bound
    cannot be dropped altogether: a length of 2^53 + 3 is no double, it
    rounds up to 2^53 + 4, and the estimate is one above the floor.  No
    Python process holds a text of that length. *)
Lemma count_tokens_roughly_above_floor :
  count_tokens_roughly (replicate (Z.to_nat 9007199254740995) 97%N)
  <> len (replicate (Z.to_nat 9007199254740995) 97%N) / 4.
Proof.
  unfold count_tokens_roughly.
  rewrite !len_replicate by lia. vm_compute. discriminate.
Qed.

(** ** The truncator *)

Lemma truncate_loop_step st max_tokens messages :
  truncate_loop st max_tokens messages =
  if loop_cond st max_tokens messages then
    match pop 2 messages with
    | Ok (_, messages') => truncate_loop st max_tokens messages'
    | Raise e => Raise e
    end
  else Ok messages.
Proof.
  funelim (truncate_loop st max_tokens messages).
  - rewrite e. reflexivity.
  - rewrite Hcond, Hpop. reflexivity.
  - rewrite Hcond.
    match goal with H : pop _ _ = Raise _ |- _ => rewrite H end. reflexivity.
Qed.

Lemma loop_cond_length st max_tokens messages :
  loop_cond st max_tokens messages = true -> (2 < length messages)%nat.
Proof.
  unfold loop_cond, len. intros [_ H]%andb_prop. apply Z.ltb_lt in H. lia.
Qed.

Lemma pop_2_in_range {A : Type} (l : list A) :
  (2 < length l)%nat -> exists x, pop 2 l = Ok (x, delete 2%nat l).
Proof.
  intros H. unfold pop. destruct (lookup_lt_is_Some_2 l 2%nat H) as [x ->]. eauto.
Qed.

Lemma take_drop_shift {A : Type} (l : list A) k :
  (2 < length l)%nat ->
  take 2 (delete 2%nat l) ++ drop (2 + k) (delete 2%nat l)
  = take 2 l ++ drop (2 + S k) l.
Proof. destruct l as [|a [|b [|c l]]]; simpl; intros; try lia. reflexivity. Qed.

Lemma take_kept {A : Type} (l : list A) k :
  take 2 (take 2 l ++ drop (2 + k) l) = take 2 l.
Proof. destruct l as [|a [|b l]]; reflexivity. Qed.

Lemma kept_subset {A : Type} (l : list A) k x :
  x ∈ take 2 l ++ drop (2 + k) l -> x ∈ l.
Proof.
  intros [H|H]%elem_of_app.
  - exact (subseteq_take _ _ _ H).
  - exact (subseteq_drop _ _ _ H).
Qed.

(** The loop ends after some [k] iterations, having removed the [k]
    references at indices 2 .. k+1; at the exit its condition is false. *)
Lemma truncate_loop_shape st max_tokens messages :
  exists k, (2 + k <= Nat.max 2 (length messages))%nat /\
    truncate_loop st max_tokens messages
      = Ok (take 2 messages ++ drop (2 + k) messages) /\
    truncate_loop_fuel k st max_tokens messages
      = Some (Ok (take 2 messages ++ drop (2 + k) messages)) /\
    loop_cond st max_tokens (take 2 messages ++ drop (2 + k) messages) = false.
Proof.
  induction messages as [ms IH] using (induction_ltof1 _ (@length nat)).
  unfold ltof in IH. rewrite truncate_loop_step.
  destruct (loop_cond st max_tokens ms) eqn:Hc.
  - pose proof (loop_cond_length _ _ _ Hc) as Hlen.
    destruct (pop_2_in_range ms Hlen) as [x Hpop]. rewrite Hpop.
    destruct (IH (delete 2%nat ms)) as (k & Hk & Hr & Hf & Hx).
    { rewrite length_delete by (apply lookup_lt_is_Some_2; exact Hlen). lia. }
    rewrite length_delete in Hk by (apply lookup_lt_is_Some_2; exact Hlen).
    rewrite take_drop_shift in Hr, Hf, Hx by exact Hlen.
    exists (S k). repeat split; try assumption; try lia.
    simpl truncate_loop_fuel. rewrite Hc, Hpop. exact Hf.
  - exists 0%nat. rewrite Nat.add_0_r, take_drop.
    repeat split; try lia; try assumption.
    simpl. rewrite Hc. reflexivity.
Qed.

Lemma truncate_never_raises st messages max_tokens :
  exists out,
    truncate_messages_to_fit_context st messages max_tokens
    = (cap_all st messages, Ok out).
Proof.
  unfold truncate_messages_to_fit_context.
  destruct (truncate_loop_shape (cap_all st messages) max_tokens messages)
    as (k & _ & -> & _). eauto.
Qed.

Lemma message_eq (m1 m2 : message) :
  role m1 = role m2 -> content m1 = content m2 -> m1 = m2.
Proof. destruct m1, m2; simpl; congruence. Qed.

Lemma cap_content_other st m l : l <> m -> cap_content st m l = st l.
Proof.
  intros Hne. unfold cap_content. destruct (400 <? len (content (st m))); [|reflexivity].
  apply fn_lookup_insert_ne. congruence.
Qed.

Lemma cap_content_role st m l : role (cap_content st m l) = role (st l).
Proof.
  destruct (decide (l = m)) as [->|Hne]; [|by rewrite cap_content_other].
  unfold cap_content. destruct (400 <? len (content (st m))); [|reflexivity].
  rewrite fn_lookup_insert. reflexivity.
Qed.

Lemma cap_content_same st m :
  content (cap_content st m m) = take 400 (content (st m)).
Proof.
  unfold cap_content. destruct (Z.ltb_spec 400 (len (content (st m)))) as [Hlt|Hge].
  - rewrite fn_lookup_insert. reflexivity.
  - symmetry. apply take_ge. unfold len in Hge. lia.
Qed.

Lemma cap_content_take st m l :
  take 400 (content (cap_content st m l)) = take 400 (content (st l)).
Proof.
  destruct (decide (l = m)) as [->|Hne]; [|by rewrite cap_content_other].
  rewrite cap_content_same, take_take. f_equal.
Qed.

Lemma cap_all_cons st m ms : cap_all st (m :: ms) = cap_all (cap_content st m) ms.
Proof. reflexivity. Qed.

Lemma cap_all_role st ms l : role (cap_all st ms l) = role (st l).
Proof.
  revert st. induction ms as [|m ms IH]; intros st; [reflexivity|].
  rewrite cap_all_cons, IH. apply cap_content_role.
Qed.

Lemma cap_all_notin st ms l : l ∉ ms -> cap_all st ms l = st l.
Proof.
  revert st. induction ms as [|m ms IH]; intros st Hl; [reflexivity|].
  apply not_elem_of_cons in Hl as [Hne Hl].
  rewrite cap_all_cons, IH by exact Hl. apply cap_content_other. exact Hne.
Qed.

Lemma cap_all_content st ms l :
  l ∈ ms -> content (cap_all st ms l) = take 400 (content (st l)).
Proof.
  revert st. induction ms as [|m ms IH]; intros st Hl; [by apply elem_of_nil in Hl|].
  rewrite cap_all_cons.
  destruct (decide (l ∈ ms)) as [Hin|Hnin].
  - rewrite IH by exact Hin. apply cap_content_take.
  - apply elem_of_cons in Hl as [->|Hl]; [|contradiction].
    rewrite cap_all_notin by exact Hnin. apply cap_content_same.
Qed.

Lemma cap_all_bound st ms l : l ∈ ms -> len (content (cap_all st ms l)) <= 400.
Proof.
  intros Hl. rewrite cap_all_content by exact Hl. unfold len.
  rewrite length_take. lia.
Qed.

Lemma total_estimated_tokens_ext st1 st2 ms :
  (forall m, st1 m = st2 m) ->
  total_estimated_tokens st1 ms = total_estimated_tokens st2 ms.
Proof.
  intros Heq. unfold total_estimated_tokens. generalize 0.
  induction ms as [|m ms IH]; intros acc; [reflexivity|].
  simpl. rewrite Heq. apply IH.
Qed.

Lemma truncate_loop_ext st1 st2 max_tokens messages :
  (forall m, st1 m = st2 m) ->
  truncate_loop st1 max_tokens messages = truncate_loop st2 max_tokens messages.
Proof.
  intros Heq.
  induction messages as [ms IH] using (induction_ltof1 _ (@length nat)).
  unfold ltof in IH.
  rewrite (truncate_loop_step st1), (truncate_loop_step st2).
  unfold loop_cond. rewrite (total_estimated_tokens_ext st1 st2 ms Heq).
  destruct (max_tokens <? total_estimated_tokens st2 ms) eqn:Hb; [|reflexivity].
  destruct (Z.ltb_spec 2 (len ms)) as [Hlen|Hlen]; [|reflexivity]. simpl.
  unfold len in Hlen. assert (Hl : (2 < length ms)%nat) by lia.
  destruct (pop_2_in_range ms Hl) as [x ->].
  apply IH. rewrite length_delete by (apply lookup_lt_is_Some_2; exact Hl). lia.
Qed.

(** What the call does: the result is the first two references followed
    by a suffix of the rest; in the store every listed message keeps its
    role and has its content cut to 400 characters, every other object is
    untouched; with no content above 400 characters the store is as
    before. *)
Lemma truncate_shape st messages max_tokens :
  let '(st', r) := truncate_messages_to_fit_context st messages max_tokens in
  exists out, r = Ok out
    /\ ((length messages <= 2)%nat -> out = messages)
    /\ take 2 out = take 2 messages
    /\ (exists k, out = take 2 messages ++ drop (2 + k) messages)
    /\ (forall m, role (st' m) = role (st m)
          /\ (m ∈ messages -> content (st' m) = take 400 (content (st m)))
          /\ (m ∉ messages -> st' m = st m))
    /\ ((forall m, m ∈ messages -> len (content (st m)) <= 400) ->
        forall m, st' m = st m).
Proof.
  unfold truncate_messages_to_fit_context.
  destruct (truncate_loop_shape (cap_all st messages) max_tokens messages)
    as (k & Hk & Hr & _ & _).
  eexists. split; [exact Hr|]. split; [|split; [|split; [|split]]].
  - intros Hlen. rewrite drop_ge by lia. rewrite app_nil_r. apply take_ge. lia.
  - apply take_kept.
  - exists k. reflexivity.
  - intros m. split; [apply cap_all_role|]. split.
    + apply cap_all_content.
    + apply cap_all_notin.
  - intros Hshort m. destruct (decide (m ∈ messages)) as [Hin|Hnin].
    + apply message_eq; [apply cap_all_role|].
      rewrite cap_all_content by exact Hin. apply take_ge.
      specialize (Hshort m Hin). unfold len in Hshort. lia.
    + apply cap_all_notin. exact Hnin.
Qed.

(** The loop removes as few messages as the budget allows. *)
Lemma truncate_loop_least st max_tokens messages :
  exists k,
    truncate_loop st max_tokens messages
      = Ok (take 2 messages ++ drop (2 + k) messages) /\
    loop_cond st max_tokens (take 2 messages ++ drop (2 + k) messages) = false /\
    forall j, (j < k)%nat ->
      loop_cond st max_tokens (take 2 messages ++ drop (2 + j) messages) = true.
Proof.
  induction messages as [ms IH] using (induction_ltof1 _ (@length nat)).
  unfold ltof in IH. rewrite truncate_loop_step.
  destruct (loop_cond st max_tokens ms) eqn:Hc.
  - pose proof (loop_cond_length _ _ _ Hc) as Hlen.
    destruct (pop_2_in_range ms Hlen) as [x Hpop]. rewrite Hpop.
    destruct (IH (delete 2%nat ms)) as (k & Hr & Hx & Hj).
    { rewrite length_delete by (apply lookup_lt_is_Some_2; exact Hlen). lia. }
    rewrite take_drop_shift in Hr, Hx by exact Hlen.
    exists (S k). split; [exact Hr|]. split; [exact Hx|].
    intros [|j] Hlt.
    + rewrite Nat.add_0_r, take_drop. exact Hc.
    + rewrite <- take_drop_shift by exact Hlen. apply Hj. lia.
  - exists 0%nat. rewrite Nat.add_0_r, take_drop.
    split; [reflexivity|]. split; [exact Hc|]. intros j Hj. lia.
Qed.

Lemma loop_cond_false st max_tokens messages :
  loop_cond st max_tokens messages = false ->
  total_estimated_tokens st messages <= max_tokens \/ (length messages <= 2)%nat.
Proof.
  unfold loop_cond, len. intros [H|H]%andb_false_iff.
  - left. apply Z.ltb_ge in H. exact H.
  - right. apply Z.ltb_ge in H. lia.
Qed.

Lemma loop_cond_true st max_tokens messages :
  loop_cond st max_tokens messages = true ->
  max_tokens < total_estimated_tokens st messages.
Proof.
  unfold loop_cond. intros [H _]%andb_prop. apply Z.ltb_lt in H. exact H.
Qed.

(** What the estimator returns on the contents the truncator passes to it:
    they are capped, and the division is exact. *)
Lemma estimate_of_capped_content st ms l :
  l ∈ ms ->
  count_tokens_roughly (content (cap_all st ms l))
  = len (content (cap_all st ms l)) / 4.
Proof.
  intros Hl. pose proof (cap_all_bound st ms l Hl) as Hb.
  unfold count_tokens_roughly. apply estimate_small.
  split; [apply len_nonneg|lia].
Qed.

(** C5: whatever the conversation and the budget, the call returns, and
    every message of the returned conversation has a content of at most
    400 characters.  The cap comes first and reaches every message of the
    conversation passed in, kept or removed later: its content is cut to
    its first 400 characters, and an object that is not listed is
    untouched.  The budget is computed after that, on the capped contents
    only: the loop runs on the store the cap has left, the result is the
    input without the [k] messages after the first two, the estimate of
    its capped contents is within the budget unless two messages or fewer
    are left, and every removal was made with the estimate of the capped
    contents above the budget. *)
Theorem truncate_caps_every_content st messages max_tokens :
  let '(st', r) := truncate_messages_to_fit_context st messages max_tokens in
  (forall m, m ∈ messages ->
     content (st' m) = take 400 (content (st m)) /\ len (content (st' m)) <= 400)
  /\ (forall m, m ∉ messages -> st' m = st m)
  /\ r = truncate_loop st' max_tokens messages
  /\ exists out, r = Ok out
       /\ (forall m, m ∈ out -> m ∈ messages /\ len (content (st' m)) <= 400)
       /\ exists k, out = take 2 messages ++ drop (2 + k) messages
            /\ (total_estimated_tokens st' out <= max_tokens \/ (length out <= 2)%nat)
            /\ forall j, (j < k)%nat ->
                 max_tokens < total_estimated_tokens st'
                                (take 2 messages ++ drop (2 + j) messages).
Proof.
  unfold truncate_messages_to_fit_context.
  destruct (truncate_loop_least (cap_all st messages) max_tokens messages)
    as (k & Hr & Hexit & Hmin).
  split; [|split; [|split; [reflexivity|]]].
  - intros m Hm. split; [apply cap_all_content; exact Hm|apply cap_all_bound; exact Hm].
  - intros m Hm. apply cap_all_notin. exact Hm.
  - eexists. split; [exact Hr|]. split.
    + intros m Hm. apply kept_subset in Hm. split; [exact Hm|].
      apply cap_all_bound. exact Hm.
    + exists k. split; [reflexivity|]. split.
      * apply loop_cond_false. exact Hexit.
      * intros j Hj. apply loop_cond_true. apply Hmin. exact Hj.
Qed.

(** The cap comes before the budget: five messages of 2000 characters
    with a budget of 1024 all come back, cut to 400 characters each, an
    estimated 500; the estimate of the contents as passed in is 2500, and
    a budget computed on those would have removed messages. *)
Example truncate_keeps_five_capped_messages :
  let st : store := fun _ => {| role := lit "user"; content := replicate 2000 97%N |} in
  let '(st', r) := truncate_messages_to_fit_context st [0; 1; 2; 3; 4]%nat 1024 in
  r = Ok [0; 1; 2; 3; 4]%nat
  /\ total_estimated_tokens st' [0; 1; 2; 3; 4]%nat = 500
  /\ total_estimated_tokens st [0; 1; 2; 3; 4]%nat = 2500
  /\ len (content (st' 4%nat)) = 400.
Proof. vm_compute. repeat split. Qed.

(** C6: a conversation of at most 2 messages comes back with the same
    message objects at the same positions; for every conversation the
    objects at indices 0 and 1 stay where they are, and what is removed is
    a run of references starting at index 2.  The objects are the same
    dicts: their roles are untouched, their contents cut to 400
    characters in place (C5), and nothing at all changes when no content
    is longer than that. *)
Theorem truncate_keeps_first_two st messages max_tokens :
  let '(st', r) := truncate_messages_to_fit_context st messages max_tokens in
  exists out, r = Ok out
    /\ ((length messages <= 2)%nat -> out = messages)
    /\ take 2 out = take 2 messages
    /\ (exists k, out = take 2 messages ++ drop (2 + k) messages)
    /\ (forall m, role (st' m) = role (st m)
          /\ (m ∈ messages -> content (st' m) = take 400 (content (st m)))
          /\ (m ∉ messages -> st' m = st m))
    /\ ((forall m, m ∈ messages -> len (content (st m)) <= 400) ->
        forall m, st' m = st m).
Proof. apply truncate_shape. Qed.

(** C9: the loop terminates.  An iteration runs only with more than 2
    messages, removes the one at index 2 and so shortens the list by one;
    at most len - 2 iterations reach the exit; and with 2 messages or
    fewer the list is returned as it is, whatever the budget. *)
Theorem truncate_loop_terminates st messages max_tokens :
  (forall ms, loop_cond st max_tokens ms = true ->
     (2 < length ms)%nat
     /\ exists x, ms !! 2%nat = Some x /\ pop 2 ms = Ok (x, delete 2%nat ms)
          /\ S (length (delete 2%nat ms)) = length ms)
  /\ (exists n out,
        (n <= length messages - 2)%nat
        /\ truncate_loop_fuel n st max_tokens messages = Some (Ok out)
        /\ truncate_loop st max_tokens messages = Ok out
        /\ length out = (length messages - n)%nat)
  /\ (forall ms, (length ms <= 2)%nat -> truncate_loop st max_tokens ms = Ok ms)
  /\ (exists out,
        (truncate_messages_to_fit_context st messages max_tokens).2 = Ok out).
Proof.
  split; [|split; [|split]].
  - intros ms Hc. pose proof (loop_cond_length _ _ _ Hc) as Hlen.
    split; [exact Hlen|].
    destruct (lookup_lt_is_Some_2 ms 2%nat Hlen) as [x Hx].
    exists x. unfold pop. rewrite Hx. split; [reflexivity|]. split; [reflexivity|].
    rewrite length_delete by eauto. lia.
  - destruct (truncate_loop_shape st max_tokens messages) as (k & Hk & Hr & Hf & _).
    exists k. eexists. split; [lia|]. split; [exact Hf|]. split; [exact Hr|].
    rewrite length_app, length_take, length_drop. lia.
  - intros ms Hlen. rewrite truncate_loop_step.
    destruct (loop_cond st max_tokens ms) eqn:Hc; [|reflexivity].
    apply loop_cond_length in Hc. lia.
  - destruct (truncate_never_raises st messages max_tokens) as [out ->]. eauto.
Qed.

(** The budget may stay exceeded at the floor: five messages of 2000
    characters with a budget of 100 come back as two messages of 400
    characters, an estimated 200. *)
Example truncate_stops_at_two_messages :
  let st : store := fun _ => {| role := lit "user"; content := replicate 2000 97%N |} in
  let '(st', r) := truncate_messages_to_fit_context st [0; 1; 2; 3; 4]%nat 100 in
  r = Ok [0; 1]%nat /\ total_estimated_tokens st' [0; 1]%nat = 200.
Proof. vm_compute. split; reflexivity. Qed.

(** C10: truncating again, with the same budget, what a call returned
    changes nothing: the same list comes back and no object of the store
    changes. *)
Theorem truncate_idempotent st messages max_tokens :
  let '(st1, r1) := truncate_messages_to_fit_context st messages max_tokens in
  exists out, r1 = Ok out /\
    let '(st2, r2) := truncate_messages_to_fit_context st1 out max_tokens in
    r2 = Ok out /\ forall m, st2 m = st1 m.
Proof.
  unfold truncate_messages_to_fit_context.
  destruct (truncate_loop_shape (cap_all st messages) max_tokens messages)
    as (k & _ & Hr & _ & Hexit).
  eexists. split; [exact Hr|].
  set (out := take 2 messages ++ drop (2 + k) messages) in *.
  assert (Hst : forall m, cap_all (cap_all st messages) out m = cap_all st messages m).
  { intros m. destruct (decide (m ∈ out)) as [Hin|Hnin].
    - apply message_eq; [apply cap_all_role|].
      rewrite cap_all_content by exact Hin.
      rewrite cap_all_content by (eapply kept_subset; exact Hin).
      rewrite take_take. f_equal.
    - apply cap_all_notin. exact Hnin. }
  split; [|exact Hst].
  rewrite (truncate_loop_ext _ _ _ _ Hst), truncate_loop_step, Hexit. reflexivity.
Qed.

(** ** The conversation handed to the queue *)

Lemma context_messages_spec context : forall st next,
  exists st',
    context_messages st next context =
      (st', (next + length context)%nat, seq next (length context))
    /\ (forall j c, context !! j = Some c ->
          st' (next + j)%nat =
            {| role := requests.turn c; content := requests.message c |})
    /\ (forall l, (l < next)%nat -> st' l = st l).
Proof.
  induction context as [|m rest IH]; intros st next.
  - exists st. simpl. rewrite Nat.add_0_r. repeat split. intros j c Hj. discriminate.
  - simpl.
    destruct (IH (<[next := {| role := requests.turn m;
                               content := requests.message m |}]> st) (S next))
      as (st' & -> & Hctx & Hold).
    exists st'. split; [f_equal; f_equal; lia|]. split.
    + intros [|j] c Hj; simpl in Hj.
      * injection Hj as <-. rewrite Nat.add_0_r, Hold by lia. apply fn_lookup_insert.
      * replace (next + S j)%nat with (S next + j)%nat by lia. apply Hctx. exact Hj.
    + intros l Hl. rewrite Hold by lia. apply fn_lookup_insert_ne. lia.
Qed.

(** C7, as amended: the handler adds exactly one message, the system
    message, to the messages of the context, which keep their order.  It
    stands at index 1, after the first context message, when the context
    is not empty, and at index 0 when it is empty; truncation never
    removes it (its content is cut to 400 characters like any other). *)
Theorem system_message_is_pinned st next request_body max_tokens :
  let n := length (requests.context request_body) in
  let i := Nat.min 1 n in
  let sys := (next + n)%nat in
  let prompt := build_system_prompt (requests.bot_profile request_body) in
  let '(st1, next1, messages) := build_messages st next request_body in
  messages = list_insert_at 1 sys (seq next n)
  /\ length messages = S n
  /\ messages !! i = Some sys
  /\ delete i messages = seq next n
  /\ (sys ∉ seq next n)
  /\ st1 sys = {| role := lit "system"; content := prompt |}
  /\ (forall j c, requests.context request_body !! j = Some c ->
        st1 (next + j)%nat =
          {| role := requests.turn c; content := requests.message c |})
  /\ let '(st2, r) := truncate_messages_to_fit_context st1 messages max_tokens in
     exists out, r = Ok out /\ out !! i = Some sys
       /\ role (st2 sys) = lit "system" /\ content (st2 sys) = take 400 prompt.
Proof.
  intros n i sys prompt. unfold build_messages.
  destruct (context_messages_spec (requests.context request_body) st next)
    as (st' & -> & Hctx & Hold).
  cbv beta iota zeta. fold n sys prompt.
  set (st1 := <[sys := {| role := lit "system"; content := prompt |}]> st').
  set (messages := list_insert_at 1 sys (seq next n)).
  assert (Hi : messages !! i = Some sys).
  { unfold messages, list_insert_at, i. destruct n as [|n']; reflexivity. }
  assert (Hlen : length messages = S n).
  { unfold messages, list_insert_at.
    rewrite length_app, length_take, length_cons, length_drop, length_seq. lia. }
  assert (Hdel : delete i messages = seq next n).
  { unfold messages, list_insert_at, i. destruct n as [|n']; reflexivity. }
  assert (Hsys : sys ∉ seq next n).
  { intros Hin. apply elem_of_seq in Hin. unfold sys in Hin. lia. }
  assert (Hst1 : st1 sys = {| role := lit "system"; content := prompt |})
    by apply fn_lookup_insert.
  split; [reflexivity|]. split; [exact Hlen|]. split; [exact Hi|].
  split; [exact Hdel|]. split; [exact Hsys|]. split; [exact Hst1|]. split.
  - intros j c Hj. unfold st1. rewrite fn_lookup_insert_ne.
    + apply Hctx. exact Hj.
    + apply lookup_lt_Some in Hj. fold n in Hj. unfold sys. lia.
  - clearbody messages st1.
    pose proof (truncate_shape st1 messages max_tokens) as H.
    unfold truncate_messages_to_fit_context in H |- *. cbv beta iota zeta in H |- *.
    destruct H as (out & Hr & _ & Htake & _ & Hst2 & _).
    exists out. split; [exact Hr|].
    destruct (Hst2 sys) as (Hrole & Hcontent & _).
    assert (Hin : sys ∈ messages) by (eapply list_elem_of_lookup_2; exact Hi).
    rewrite Hrole, (Hcontent Hin), Hst1. simpl.
    split; [|split; reflexivity].
    assert (Hi2 : (i < 2)%nat) by (unfold i; lia).
    rewrite <- (lookup_take_lt out 2 i Hi2), Htake, lookup_take_lt by exact Hi2.
    exact Hi.
Qed.

(** C7, as stated, fails for a request without context: the list holds
    the system message alone, at index 0, and nothing at index 1. *)
Lemma system_message_lands_at_index_0 :
  let '(st1, _, messages) :=
    build_messages (objects startup_event) 0 (sample_request 0) in
  messages = [0%nat] /\ messages !! 1%nat = None /\ role (st1 0%nat) = lit "system".
Proof. vm_compute. repeat split. Qed.

(** ** The running application *)

Lemma consumers_split (cs : list consumer_pc) c pc :
  cs !! c = Some pc ->
  exists pre post, cs = pre ++ pc :: post /\
    forall pc', <[c := pc']> cs = pre ++ pc' :: post.
Proof.
  intros H. exists (take c cs), (drop (S c) cs). split.
  - symmetry. apply take_drop_middle. exact H.
  - intros pc'. apply insert_take_drop. eapply lookup_lt_Some. exact H.
Qed.

Lemma count_in_engine_split pre pc post :
  count_in_engine (pre ++ pc :: post) =
  count_in_engine pre + (if in_engine pc then 1 else 0) + count_in_engine post.
Proof.
  unfold count_in_engine, len. rewrite filter_app, length_app.
  destruct (in_engine pc) eqn:E.
  - rewrite filter_cons_True by exact E. simpl. lia.
  - rewrite filter_cons_False by congruence. lia.
Qed.

Lemma count_in_engine_nonneg cs : 0 <= count_in_engine cs.
Proof. unfold count_in_engine, len. lia. Qed.

Lemma held_split pre pc post :
  (pre ++ pc :: post) ≫= held = (pre ≫= held) ++ held pc ++ (post ≫= held).
Proof. rewrite bind_app, bind_cons. reflexivity. Qed.

Lemma calls_in_flight_set s c pc pc' :
  consumers s !! c = Some pc ->
  calls_in_flight (set_consumer s c pc') =
  calls_in_flight s - (if in_engine pc then 1 else 0) + (if in_engine pc' then 1 else 0).
Proof.
  intros H. destruct (consumers_split _ _ _ H) as (pre & post & Hcs & Hins).
  unfold calls_in_flight, set_consumer. simpl. rewrite Hins, Hcs.
  rewrite !count_in_engine_split. lia.
Qed.

Lemma live_items_set s c pc pc' :
  consumers s !! c = Some pc ->
  held pc' ++ live_items s ≡ₚ held pc ++ live_items (set_consumer s c pc').
Proof.
  intros H. destruct (consumers_split _ _ _ H) as (pre & post & Hcs & Hins).
  unfold live_items, set_consumer. simpl. rewrite Hins, Hcs, !held_split.
  solve_Permutation.
Qed.

Lemma items_ok_shrink s s' rd :
  items_ok s ->
  live_items s ≡ₚ rd :: live_items s' ->
  unfinished_tasks (queue s') = unfinished_tasks (queue s) - 1 ->
  next_future s' = next_future s ->
  (forall x, x <> future rd -> futures s' x = futures s x) ->
  items_ok s'.
Proof.
  intros [Ht Hd Ha Hu] Hperm Hunf Hnext Hfut.
  assert (Hd' : NoDup (future rd :: (future <$> live_items s')))
    by (rewrite <- fmap_cons, <- Hperm; exact Hd).
  apply NoDup_cons in Hd' as [Hnotin Hd'].
  assert (Hsub : forall rd', rd' ∈ live_items s' -> rd' ∈ live_items s)
    by (intros rd' Hin; rewrite Hperm; apply elem_of_cons; right; exact Hin).
  split.
  - rewrite Hunf, Ht. unfold len. rewrite Hperm. simpl. lia.
  - exact Hd'.
  - intros rd' Hin. rewrite Hnext. apply Ha, Hsub, Hin.
  - intros rd' Hin. rewrite Hfut; [apply Hu, Hsub, Hin|].
    intros Heq. apply Hnotin. rewrite <- Heq. apply list_elem_of_fmap_2. exact Hin.
Qed.

Lemma items_ok_same s s' :
  items_ok s ->
  live_items s' ≡ₚ live_items s ->
  unfinished_tasks (queue s') = unfinished_tasks (queue s) ->
  (next_future s <= next_future s')%nat ->
  (forall x, (x < next_future s)%nat ->
     futures s x = Pending \/ futures s x = Cancelled ->
     futures s' x = Pending \/ futures s' x = Cancelled) ->
  items_ok s'.
Proof.
  intros [Ht Hd Ha Hu] Hperm Hunf Hnext Hfut. split.
  - rewrite Hunf, Ht. unfold len. rewrite Hperm. reflexivity.
  - rewrite Hperm. exact Hd.
  - intros rd Hin. rewrite Hperm in Hin. specialize (Ha rd Hin). lia.
  - intros rd Hin. rewrite Hperm in Hin. apply Hfut; [apply Ha|apply Hu]; exact Hin.
Qed.

Lemma items_ok_grow s s' rd :
  items_ok s ->
  live_items s' ≡ₚ rd :: live_items s ->
  unfinished_tasks (queue s') = unfinished_tasks (queue s) + 1 ->
  future rd = next_future s ->
  next_future s' = S (next_future s) ->
  futures s' = <[next_future s := Pending]> (futures s) ->
  items_ok s'.
Proof.
  intros [Ht Hd Ha Hu] Hperm Hunf Hrd Hnext Hfut. split.
  - rewrite Hunf, Ht. unfold len. rewrite Hperm. simpl. lia.
  - rewrite Hperm, fmap_cons. apply NoDup_cons. split; [|exact Hd].
    intros (rd' & Heq & Hin)%list_elem_of_fmap. specialize (Ha rd' Hin). lia.
  - intros rd' Hin. rewrite Hperm in Hin. rewrite Hnext.
    apply elem_of_cons in Hin as [->|Hin]; [lia|]. specialize (Ha rd' Hin). lia.
  - intros rd' Hin. rewrite Hperm in Hin. rewrite Hfut.
    apply elem_of_cons in Hin as [->|Hin].
    + left. rewrite Hrd. apply fn_lookup_insert.
    + rewrite fn_lookup_insert_ne by (specialize (Ha rd' Hin); lia). apply Hu, Hin.
Qed.

Lemma complete_item_eq s c rd r :
  0 < unfinished_tasks (queue s) ->
  complete_item s c rd r =
  set_consumer
    (with_queue (set_future s (future rd) (write_outcome (futures s (future rd)) r).1)
       {| maxsize := maxsize (queue s); items := items (queue s);
          unfinished_tasks := unfinished_tasks (queue s) - 1 |})
    c
    match (write_outcome (futures s (future rd)) r).2 with
    | None => AwaitGet
    | Some e => Finished e
    end.
Proof.
  intros Hpos. unfold complete_item, task_done.
  destruct (write_outcome (futures s (future rd)) r) as [f fl]. simpl.
  destruct (Z.leb_spec (unfinished_tasks (queue s)) 0) as [Hle|_]; [lia|].
  destruct fl; reflexivity.
Qed.

Lemma live_items_pos s c pc rd :
  items_ok s -> consumers s !! c = Some pc -> held pc = [rd] ->
  0 < unfinished_tasks (queue s).
Proof.
  intros Hok Hc Hheld. rewrite (tasks s Hok).
  destruct (consumers_split _ _ _ Hc) as (pre & post & Hcs & _).
  unfold live_items, len. rewrite Hcs, held_split, Hheld, !length_app. simpl. lia.
Qed.

Lemma complete_item_items_ok s c pc rd r :
  items_ok s -> consumers s !! c = Some pc -> held pc = [rd] ->
  items_ok (complete_item s c rd r).
Proof.
  intros Hok Hc Hheld.
  rewrite complete_item_eq by (eapply live_items_pos; eassumption).
  eapply (items_ok_shrink s _ rd Hok).
  - set (pc' := match _ with None => AwaitGet | Some e => Finished e end).
    assert (Hpc' : held pc' = []) by (unfold pc'; destruct (_.2); reflexivity).
    pose proof (live_items_set s c pc pc' Hc) as Hp.
    rewrite Hheld, Hpc' in Hp. simpl in Hp. exact Hp.
  - reflexivity.
  - reflexivity.
  - intros x Hx. simpl. apply fn_lookup_insert_ne. congruence.
Qed.

Lemma complete_item_flight s c pc rd r :
  consumers s !! c = Some pc ->
  calls_in_flight (complete_item s c rd r) =
  calls_in_flight s - (if in_engine pc then 1 else 0)
  /\ semaphore (complete_item s c rd r) = semaphore s.
Proof.
  intros Hc. unfold complete_item.
  destruct (write_outcome (futures s (future rd)) r) as [f fl].
  destruct (task_done _) as [q|e].
  - destruct fl; (split; [|reflexivity]);
      rewrite (calls_in_flight_set _ c pc) by exact Hc; simpl; unfold calls_in_flight; simpl; lia.
  - split; [|reflexivity].
    rewrite (calls_in_flight_set _ c pc) by exact Hc; simpl; unfold calls_in_flight; simpl; lia.
Qed.

Section Steps.
Context {runtime : PyRuntime}.

#[local] Abbreviation core s := (gate_ok s /\ items_ok s).

Lemma start_generation_eq s c rd :
  exists out,
    truncate_messages_to_fit_context (objects s) (messages rd) MAX_CONTEXT_TOKENS
      = (cap_all (objects s) (messages rd), Ok out) /\
    start_generation s c rd =
      set_consumer (with_objects s (cap_all (objects s) (messages rd)) (next_object s))
        c (AwaitEngine rd out).
Proof.
  destruct (truncate_never_raises (objects s) (messages rd) MAX_CONTEXT_TOKENS)
    as [out Hout].
  exists out. split; [exact Hout|]. unfold start_generation. rewrite Hout. reflexivity.
Qed.

Lemma startup_core : core startup_event.
Proof.
  split; [split; [done|reflexivity]|]. split; simpl.
  - reflexivity.
  - apply NoDup_nil_2.
  - intros rd Hin. by apply elem_of_nil in Hin.
  - intros rd Hin. by apply elem_of_nil in Hin.
Qed.

Lemma cancel_keeps_undecided (fs : nat -> Future) fut x :
  fs x = Pending \/ fs x = Cancelled ->
  <[fut := (cancel (fs fut)).1]> fs x = Pending \/
  <[fut := (cancel (fs fut)).1]> fs x = Cancelled.
Proof.
  intros H. destruct (decide (x = fut)) as [->|Hne].
  - rewrite fn_lookup_insert. destruct H as [-> | ->]; simpl; auto.
  - rewrite fn_lookup_insert_ne by congruence. exact H.
Qed.

Lemma handler_except_core s fut e :
  core s -> core (handler_except s fut e).1.
Proof.
  intros [Hg Hok]. unfold handler_except.
  destruct e; try (destruct (is_Exception _); simpl; split; assumption).
  simpl. split; [exact Hg|].
  apply (items_ok_same s); try reflexivity; [exact Hok|].
  intros x _ Hx. simpl. apply cancel_keeps_undecided. exact Hx.
Qed.

Lemma set_handler_core s h r :
  core s -> core (set_handler s h r).
Proof. intros [Hg [Ht Hd Ha Hu]]. split; [exact Hg|]. split; assumption. Qed.

Lemma arrive_core s request_body :
  core s -> core (arrive s request_body).
Proof.
  intros [Hg Hok]. unfold arrive.
  destruct (build_messages _ _ _) as [[st next] msgs].
  set (fut := next_future s).
  set (s1 := with_futures _ _ _).
  assert (Hok1 : items_ok s1).
  { apply (items_ok_same s); try reflexivity; [exact Hok|simpl; lia|].
    intros x Hx H. simpl. rewrite fn_lookup_insert_ne by (unfold fut; lia). exact H. }
  unfold put_nowait. destruct (full (queue s1)).
  - split; [exact Hg|]. destruct Hok1. split; assumption.
  - split; [exact Hg|].
    apply (items_ok_grow s _ {| messages := msgs; future := fut |} Hok); try reflexivity.
    unfold live_items. simpl. solve_Permutation.
Qed.

Lemma dequeue_core s c s' :
  core s -> dequeue s c = Some s' -> core s'.
Proof.
  intros [Hg Hok] Hstep. unfold dequeue in Hstep.
  destruct (consumers s !! c) as [pc|] eqn:Hc; [|discriminate].
  destruct pc; try discriminate.
  unfold get in Hstep. destruct (items (queue s)) as [|rd rest] eqn:Hitems; [discriminate|].
  set (q := {| maxsize := maxsize (queue s); items := rest;
               unfinished_tasks := unfinished_tasks (queue s) |}) in *.
  assert (Hlive : live_items s = rd :: live_items (with_queue s q)).
  { unfold live_items. rewrite Hitems. reflexivity. }
  assert (Hpos : 0 < unfinished_tasks (queue s)).
  { rewrite (tasks s Hok), Hlive. unfold len. simpl. lia. }
  simpl in Hstep. destruct (cancelled (futures s (future rd))) eqn:Hcanc.
  - unfold task_done in Hstep. simpl in Hstep.
    destruct (Z.leb_spec (unfinished_tasks (queue s)) 0) as [Hle|_]; [lia|].
    injection Hstep as <-. split; [exact Hg|].
    apply (items_ok_shrink s _ rd Hok); try reflexivity. rewrite Hlive. reflexivity.
  - unfold acquire in Hstep. destruct (Z.ltb_spec 0 (semaphore s)) as [Hsem|Hsem].
    + injection Hstep as <-.
      destruct (start_generation_eq (with_semaphore (with_queue s q) (semaphore s - 1)) c rd)
        as (out & _ & ->).
      split.
      * unfold gate_ok. rewrite (calls_in_flight_set _ c AwaitGet) by exact Hc.
        simpl. unfold gate_ok in Hg. unfold calls_in_flight in *. simpl. lia.
      * apply (items_ok_same s); try reflexivity; [exact Hok| |auto].
        pose proof (live_items_set (with_queue s q) c AwaitGet (AwaitEngine rd out) Hc) as Hp.
        simpl in Hp. rewrite Hlive. symmetry. exact Hp.
    + injection Hstep as <-. split.
      * unfold gate_ok. rewrite (calls_in_flight_set _ c AwaitGet) by exact Hc.
        simpl. unfold gate_ok in Hg. unfold calls_in_flight in *. simpl. lia.
      * apply (items_ok_same s); try reflexivity; [exact Hok| |auto].
        pose proof (live_items_set (with_queue s q) c AwaitGet (AwaitSemaphore rd) Hc) as Hp.
        simpl in Hp. rewrite Hlive. symmetry. exact Hp.
Qed.

Lemma acquire_permit_core s c s' :
  core s -> acquire_permit s c = Some s' -> core s'.
Proof.
  intros [Hg Hok] Hstep. unfold acquire_permit in Hstep.
  destruct (consumers s !! c) as [pc|] eqn:Hc; [|discriminate].
  destruct pc as [|rd| |]; try discriminate.
  unfold acquire in Hstep. destruct (Z.ltb_spec 0 (semaphore s)) as [Hsem|Hsem]; [|discriminate].
  simpl in Hstep. injection Hstep as <-.
  destruct (start_generation_eq (with_semaphore s (semaphore s - 1)) c rd)
    as (out & _ & ->).
  split.
  - unfold gate_ok. rewrite (calls_in_flight_set _ c (AwaitSemaphore rd)) by exact Hc.
    simpl. unfold gate_ok in Hg. unfold calls_in_flight in *. simpl. lia.
  - apply (items_ok_same s); try reflexivity; [exact Hok| |auto].
    pose proof (live_items_set s c (AwaitSemaphore rd) (AwaitEngine rd out) Hc) as Hp.
    simpl in Hp. apply Permutation_cons_inv in Hp. symmetry. exact Hp.
Qed.

Lemma engine_done_core s c o s' :
  core s -> engine_done s c o = Some s' -> core s'.
Proof.
  intros [Hg Hok] Hstep. unfold engine_done in Hstep.
  destruct (consumers s !! c) as [pc|] eqn:Hc; [|discriminate].
  destruct pc as [| |rd t|]; try discriminate.
  injection Hstep as <-.
  set (s1 := with_semaphore s (release (semaphore s))).
  split.
  - unfold gate_ok.
    destruct (complete_item_flight s1 c (AwaitEngine rd t) rd
                (generation_error (engine_result o)) Hc) as [-> ->].
    simpl. unfold gate_ok in Hg. unfold calls_in_flight in *. simpl.
    unfold release. lia.
  - apply (complete_item_items_ok s1 c (AwaitEngine rd t)); [|exact Hc|reflexivity].
    destruct Hok. split; assumption.
Qed.

Lemma deliver_core s h s' :
  core s -> deliver s h = Some s' -> core s'.
Proof.
  intros Hs Hstep. unfold deliver in Hstep.
  destruct (handlers s !! h) as [[fut|]|]; try discriminate.
  destruct (futures s fut) eqn:Hf; try discriminate.
  - pose proof (handler_except_core s fut CancelledError Hs) as H.
    destruct (handler_except s fut CancelledError) as [s1 r].
    injection Hstep as <-. apply set_handler_core. exact H.
  - injection Hstep as <-. apply set_handler_core. exact Hs.
  - pose proof (handler_except_core s fut e Hs) as H.
    destruct (handler_except s fut e) as [s1 r].
    injection Hstep as <-. apply set_handler_core. exact H.
Qed.

Lemma deadline_core s h s' :
  core s -> deadline s h = Some s' -> core s'.
Proof.
  intros [Hg Hok] Hstep. unfold deadline in Hstep.
  destruct (handlers s !! h) as [[fut|]|]; try discriminate.
  destruct (futures s fut) eqn:Hf; try discriminate.
  set (s1 := set_future s fut _) in Hstep.
  assert (Hs1 : core s1).
  { split; [exact Hg|]. apply (items_ok_same s); try reflexivity; [exact Hok|].
    intros x _ Hx. unfold s1. simpl.
    destruct (decide (x = fut)) as [->|Hne].
    - right. apply fn_lookup_insert.
    - rewrite fn_lookup_insert_ne by congruence. exact Hx. }
  pose proof (handler_except_core s1 fut TimeoutError Hs1) as H.
  destruct (handler_except s1 fut TimeoutError) as [s2 r].
  injection Hstep as <-. apply set_handler_core. exact H.
Qed.

Lemma step_core l s s' :
  core s -> step l s = Some s' -> core s'.
Proof.
  intros Hs Hstep. destruct l; simpl in Hstep.
  - injection Hstep as <-. apply arrive_core. exact Hs.
  - eapply dequeue_core; eassumption.
  - eapply acquire_permit_core; eassumption.
  - eapply engine_done_core; eassumption.
  - eapply deliver_core; eassumption.
  - eapply deadline_core; eassumption.
Qed.

Lemma exec_core ls s s' :
  core s -> exec ls s = Some s' -> core s'.
Proof.
  revert s. induction ls as [|l ls IH]; intros s Hs Hexec; simpl in Hexec.
  - injection Hexec as <-. exact Hs.
  - destruct (step l s) as [s1|] eqn:Hstep; [|discriminate].
    simpl in Hexec. eapply IH; [|exact Hexec]. eapply step_core; eassumption.
Qed.


(** *** What a step does to the handlers and to the futures *)

Lemma complete_item_frame s c rd r :
  handlers (complete_item s c rd r) = handlers s
  /\ next_future (complete_item s c rd r) = next_future s
  /\ futures (complete_item s c rd r) =
       <[future rd := (write_outcome (futures s (future rd)) r).1]> (futures s)
  /\ items (queue (complete_item s c rd r)) = items (queue s)
  /\ objects (complete_item s c rd r) = objects s.
Proof.
  unfold complete_item, task_done.
  destruct (write_outcome (futures s (future rd)) r) as [f fl]. simpl.
  destruct (unfinished_tasks (queue s) <=? 0); [|destruct fl]; repeat split.
Qed.

Lemma start_generation_frame s c rd :
  handlers (start_generation s c rd) = handlers s
  /\ next_future (start_generation s c rd) = next_future s
  /\ futures (start_generation s c rd) = futures s.
Proof.
  destruct (start_generation_eq s c rd) as (out & _ & ->). repeat split.
Qed.

Lemma handler_except_frame s fut e :
  handlers (handler_except s fut e).1 = handlers s
  /\ next_future (handler_except s fut e).1 = next_future s
  /\ (futures (handler_except s fut e).1 = futures s
      \/ futures (handler_except s fut e).1 = <[fut := (cancel (futures s fut)).1]> (futures s)).
Proof.
  unfold handler_except.
  destruct e; try (destruct (is_Exception _)); simpl; repeat split; auto.
Qed.

Lemma write_outcome_cancelled r : (write_outcome Cancelled r).1 = Cancelled.
Proof.
  unfold write_outcome. destruct r as [response|e]; simpl; [reflexivity|].
  destruct (is_Exception e); reflexivity.
Qed.

(** How the handlers change in a step: not at all, by one new handler, or
    by the return of a suspended one. *)
Lemma step_handlers l s s' :
  step l s = Some s' ->
  (next_future s <= next_future s')%nat /\
  (handlers s' = handlers s
   \/ (exists r, handlers s' = handlers s ++ [Returned r])
   \/ (handlers s' = handlers s ++ [Awaiting (next_future s)]
       /\ next_future s' = S (next_future s))
   \/ (exists h fut r, handlers s !! h = Some (Awaiting fut)
         /\ handlers s' = <[h := Returned r]> (handlers s))).
Proof.
  intros Hstep. destruct l as [rb|c|c|c o|h|h]; simpl in Hstep.
  - injection Hstep as <-. unfold arrive.
    destruct (build_messages _ _ _) as [[st next] msgs].
    unfold put_nowait. destruct (full _); simpl; split; try lia; eauto.
  - unfold dequeue in Hstep.
    destruct (consumers s !! c) as [[| | |]|]; try discriminate.
    destruct (get (queue s)) as [[rd q]|]; [|discriminate]. simpl in Hstep.
    destruct (cancelled _).
    + destruct (task_done q); injection Hstep as <-; simpl; split; auto.
    + destruct (acquire _) as [sem|]; injection Hstep as <-.
      * destruct (start_generation_frame (with_semaphore (with_queue s q) sem) c rd)
          as (-> & -> & _). simpl; split; auto.
      * simpl; split; auto.
  - unfold acquire_permit in Hstep.
    destruct (consumers s !! c) as [[|rd| |]|]; try discriminate.
    destruct (acquire _) as [sem|]; [|discriminate]. simpl in Hstep.
    injection Hstep as <-.
    destruct (start_generation_frame (with_semaphore s sem) c rd) as (-> & -> & _).
    simpl; split; auto.
  - unfold engine_done in Hstep.
    destruct (consumers s !! c) as [[| |rd t|]|]; try discriminate.
    injection Hstep as <-.
    destruct (complete_item_frame (with_semaphore s (release (semaphore s))) c rd
                (generation_error (engine_result o))) as (-> & -> & _).
    simpl; split; auto.
  - unfold deliver in Hstep.
    destruct (handlers s !! h) as [[fut|]|] eqn:Hh; try discriminate.
    destruct (futures s fut); try discriminate.
    + destruct (handler_except_frame s fut CancelledError) as (Hh1 & Hn1 & _).
      destruct (handler_except s fut CancelledError) as [s1 r]. simpl in *.
      injection Hstep as <-. simpl. rewrite Hh1, Hn1. split; [lia|].
      right; right; right. eauto.
    + injection Hstep as <-. simpl. split; [lia|]. right; right; right. eauto.
    + destruct (handler_except_frame s fut e) as (Hh1 & Hn1 & _).
      destruct (handler_except s fut e) as [s1 r]. simpl in *.
      injection Hstep as <-. simpl. rewrite Hh1, Hn1. split; [lia|].
      right; right; right. eauto.
  - unfold deadline in Hstep.
    destruct (handlers s !! h) as [[fut|]|] eqn:Hh; try discriminate.
    destruct (futures s fut); try discriminate.
    injection Hstep as <-. simpl. split; [lia|]. right; right; right. eauto.
Qed.

Lemma step_handlers_ok l s s' :
  handlers_ok s -> step l s = Some s' -> handlers_ok s'.
Proof.
  intros Hok Hstep h fut Hh.
  destruct (step_handlers l s s' Hstep) as [Hn [Heq|[[r Heq]|[[Heq Hn']|(h0 & f0 & r & Hh0 & Heq)]]]];
    rewrite Heq in Hh.
  - specialize (Hok h fut Hh). lia.
  - apply lookup_app_Some in Hh as [Hh|[_ Hh]].
    + specialize (Hok h fut Hh). lia.
    + destruct (h - length (handlers s))%nat as [|[|]]; simpl in Hh; discriminate.
  - apply lookup_app_Some in Hh as [Hh|[_ Hh]].
    + specialize (Hok h fut Hh). lia.
    + destruct (h - length (handlers s))%nat as [|[|]]; simpl in Hh; try discriminate.
      injection Hh as <-. lia.
  - destruct (decide (h = h0)) as [->|Hne].
    + rewrite list_lookup_insert_eq in Hh by (eapply lookup_lt_Some; exact Hh0).
      discriminate.
    + rewrite list_lookup_insert_ne in Hh by congruence.
      specialize (Hok h fut Hh). lia.
Qed.

(** A handler that has returned stays as it is. *)
Lemma step_keeps_returned l s s' h r :
  handlers s !! h = Some (Returned r) -> step l s = Some s' ->
  handlers s' !! h = Some (Returned r).
Proof.
  intros Hh Hstep.
  destruct (step_handlers l s s' Hstep) as [_ [Heq|[[r' Heq]|[[Heq _]|(h0 & f0 & r' & Hh0 & Heq)]]]];
    rewrite Heq.
  - exact Hh.
  - apply lookup_app_l_Some. exact Hh.
  - apply lookup_app_l_Some. exact Hh.
  - rewrite list_lookup_insert_ne by congruence. exact Hh.
Qed.

(** A cancelled future stays cancelled. *)
Lemma step_keeps_cancelled l s s' fut :
  (fut < next_future s)%nat -> futures s fut = Cancelled -> step l s = Some s' ->
  futures s' fut = Cancelled.
Proof.
  intros Hlt Hf Hstep. destruct l as [rb|c|c|c o|h|h]; simpl in Hstep.
  - injection Hstep as <-. unfold arrive.
    destruct (build_messages _ _ _) as [[st next] msgs].
    unfold put_nowait. destruct (full _); simpl;
      rewrite fn_lookup_insert_ne by lia; exact Hf.
  - unfold dequeue in Hstep.
    destruct (consumers s !! c) as [[| | |]|]; try discriminate.
    destruct (get (queue s)) as [[rd q]|]; [|discriminate]. simpl in Hstep.
    destruct (cancelled _).
    + destruct (task_done q); injection Hstep as <-; exact Hf.
    + destruct (acquire _) as [sem|]; injection Hstep as <-; [|exact Hf].
      destruct (start_generation_frame (with_semaphore (with_queue s q) sem) c rd)
        as (_ & _ & ->). exact Hf.
  - unfold acquire_permit in Hstep.
    destruct (consumers s !! c) as [[|rd| |]|]; try discriminate.
    destruct (acquire _) as [sem|]; [|discriminate]. simpl in Hstep.
    injection Hstep as <-.
    destruct (start_generation_frame (with_semaphore s sem) c rd) as (_ & _ & ->).
    exact Hf.
  - unfold engine_done in Hstep.
    destruct (consumers s !! c) as [[| |rd t|]|]; try discriminate.
    injection Hstep as <-.
    destruct (complete_item_frame (with_semaphore s (release (semaphore s))) c rd
                (generation_error (engine_result o))) as (_ & _ & -> & _).
    simpl. destruct (decide (fut = future rd)) as [->|Hne].
    + rewrite fn_lookup_insert, Hf. apply write_outcome_cancelled.
    + rewrite fn_lookup_insert_ne by congruence. exact Hf.
  - unfold deliver in Hstep.
    destruct (handlers s !! h) as [[fut'|]|] eqn:Hh; try discriminate.
    assert (Hexc : forall e, futures (handler_except s fut' e).1 fut = Cancelled).
    { intros e. destruct (handler_except_frame s fut' e) as (_ & _ & [-> | ->]); [exact Hf|].
      destruct (decide (fut = fut')) as [->|Hne].
      - rewrite fn_lookup_insert, Hf. reflexivity.
      - rewrite fn_lookup_insert_ne by congruence. exact Hf. }
    destruct (futures s fut'); try discriminate.
    + specialize (Hexc CancelledError).
      destruct (handler_except s fut' CancelledError) as [s1 r].
      injection Hstep as <-. exact Hexc.
    + injection Hstep as <-. exact Hf.
    + specialize (Hexc e). destruct (handler_except s fut' e) as [s1 r].
      injection Hstep as <-. exact Hexc.
  - unfold deadline in Hstep.
    destruct (handlers s !! h) as [[fut'|]|] eqn:Hh; try discriminate.
    destruct (futures s fut') eqn:Hf'; try discriminate.
    injection Hstep as <-. simpl.
    destruct (decide (fut = fut')) as [->|Hne]; [congruence|].
    rewrite !fn_lookup_insert_ne by congruence. exact Hf.
Qed.

Lemma startup_consistent : consistent startup_event.
Proof.
  destruct startup_core as [Hg Hok]. split; [exact Hg|split; [exact Hok|]].
  intros h fut Hh. discriminate.
Qed.

Lemma step_consistent l s s' :
  consistent s -> step l s = Some s' -> consistent s'.
Proof.
  intros (Hg & Hok & Hh) Hstep.
  destruct (step_core l s s' (conj Hg Hok) Hstep) as [Hg' Hok'].
  split; [exact Hg'|split; [exact Hok'|]].
  eapply step_handlers_ok; eassumption.
Qed.

Lemma exec_consistent ls s s' :
  consistent s -> exec ls s = Some s' -> consistent s'.
Proof.
  revert s. induction ls as [|l ls IH]; intros s Hs Hexec; simpl in Hexec.
  - injection Hexec as <-. exact Hs.
  - destruct (step l s) as [s1|] eqn:Hstep; [|discriminate].
    simpl in Hexec. eapply IH; [|exact Hexec]. eapply step_consistent; eassumption.
Qed.

Lemma reachable_consistent s : reachable s -> consistent s.
Proof.
  intros [ls Hls]. eapply exec_consistent; [apply startup_consistent|exact Hls].
Qed.

Lemma reachable_step l s s' : reachable s -> step l s = Some s' -> reachable s'.
Proof.
  intros [ls Hls] Hstep. exists (ls ++ [l]).
  revert Hls. generalize startup_event. induction ls as [|l0 ls IH]; intros s0 Hls; simpl in *.
  - injection Hls as ->. rewrite Hstep. reflexivity.
  - destruct (step l0 s0) as [s1|]; [|discriminate]. simpl in *. apply IH. exact Hls.
Qed.

Lemma reachable_exec ls s s' : reachable s -> exec ls s = Some s' -> reachable s'.
Proof.
  revert s. induction ls as [|l ls IH]; intros s Hs Hexec; simpl in Hexec.
  - injection Hexec as <-. exact Hs.
  - destruct (step l s) as [s1|] eqn:Hstep; [|discriminate].
    simpl in Hexec. eapply IH; [|exact Hexec]. eapply reachable_step; eassumption.
Qed.

(** The permit, not the number of consumers, keeps the engine calls
    apart: started with any number of consumer tasks, the application
    never has two calls in flight. *)
Lemma idle_pool_core n :
  core (with_consumers startup_event (replicate n AwaitGet)).
Proof.
  assert (Hc : count_in_engine (replicate n AwaitGet) = 0).
  { induction n as [|n IH]; [reflexivity|].
    change (replicate (S n) AwaitGet) with ([] ++ AwaitGet :: replicate n AwaitGet).
    rewrite count_in_engine_split, IH. reflexivity. }
  assert (Hh : replicate n AwaitGet ≫= held = []).
  { clear Hc. induction n as [|n IH]; [reflexivity|].
    change (replicate (S n) AwaitGet) with (AwaitGet :: replicate n AwaitGet).
    rewrite bind_cons, IH. reflexivity. }
  split.
  - split; [done|]. unfold calls_in_flight. simpl. rewrite Hc. reflexivity.
  - split; unfold live_items; simpl; rewrite Hh; simpl.
    + reflexivity.
    + apply NoDup_nil_2.
    + intros rd Hin. by apply elem_of_nil in Hin.
    + intros rd Hin. by apply elem_of_nil in Hin.
Qed.

Lemma one_call_for_any_pool n ls s :
  exec ls (with_consumers startup_event (replicate n AwaitGet)) = Some s ->
  calls_in_flight s <= 1.
Proof.
  intros Hexec.
  destruct (exec_core ls _ s (idle_pool_core n) Hexec) as [[Hsem Hg] _]. lia.
Qed.

End Steps.

Lemma collect_choices_Exception choices : forall response e,
  collect_choices response choices = Raise e -> is_Exception e = true.
Proof.
  induction choices as [|choice rest IH]; intros response e H; simpl in H; [discriminate|].
  destruct (py_contains (lit "message") choice) as [has|e1] eqn:Hc; simpl in H.
  - destruct has.
    + destruct (py_getitem choice (lit "message")) as [m|e2] eqn:Hm; simpl in H.
      * destruct (py_getitem m (lit "content")) as [x|e3] eqn:Hx; simpl in H.
        -- destruct (py_iadd_str response x) as [r'|e4] eqn:Hr; simpl in H.
           ++ eapply IH; exact H.
           ++ injection H as <-. destruct x; simpl in Hr; try discriminate;
                injection Hr as <-; reflexivity.
        -- injection H as <-. unfold py_getitem in Hx.
           destruct m; try (injection Hx as <-; reflexivity).
           destruct (dict_get d (lit "content")); [discriminate|].
           injection Hx as <-. reflexivity.
      * injection H as <-. unfold py_getitem in Hm.
        destruct choice; try (injection Hm as <-; reflexivity).
        destruct (dict_get d (lit "message")); [discriminate|].
        injection Hm as <-. reflexivity.
    + simpl in H. eapply IH; exact H.
  - injection H as <-. destruct choice; simpl in Hc; try discriminate;
      injection Hc as <-; reflexivity.
Qed.

Lemma extract_response_Exception answer e :
  extract_response answer = Raise e -> is_Exception e = true.
Proof.
  unfold extract_response. intros H.
  destruct answer as [| | | |d]; try (injection H as <-; reflexivity).
  destruct (py_iter _) as [cs|e1] eqn:Hi; simpl in H.
  - eapply collect_choices_Exception; exact H.
  - injection H as <-.
    destruct (default (PList []) (dict_get d (lit "choices"))); simpl in Hi;
      try discriminate; injection Hi as <-; reflexivity.
Qed.


Section Guarantees.
Context {runtime : PyRuntime}.

Lemma ordinary_generation o :
  ordinary o = true ->
  (exists response, generation_error (engine_result o) = Ok response)
  \/ (exists detail, generation_error (engine_result o) = Raise (HTTPException 500 detail)).
Proof.
  intros H. unfold generation_error.
  destruct (engine_result o) as [response|e] eqn:Hr; [eauto|].
  assert (He : is_Exception e = true).
  { destruct o as [answer|e']; simpl in *.
    - eapply extract_response_Exception; exact Hr.
    - injection Hr as <-. exact H. }
  rewrite He. eauto.
Qed.

Lemma in_flight_positive s c rd t :
  consumers s !! c = Some (AwaitEngine rd t) -> 1 <= calls_in_flight s.
Proof.
  intros Hc. destruct (consumers_split _ _ _ Hc) as (pre & post & Hcs & _).
  unfold calls_in_flight. rewrite Hcs, count_in_engine_split. simpl.
  pose proof (count_in_engine_nonneg pre). pose proof (count_in_engine_nonneg post).
  lia.
Qed.

Lemma calls_in_flight_nonneg s : 0 <= calls_in_flight s.
Proof. apply count_in_engine_nonneg. Qed.

(** C2: in every state of the application at most one engine call is in
    flight.  A call is in flight exactly while the single permit of the
    semaphore is taken, and a step changes the number of calls in flight
    by what it takes from, or gives back to, the semaphore: a call starts
    only by taking the permit, and the permit returns only when the call
    is over. *)
Theorem at_most_one_generation_in_flight s :
  reachable s ->
  calls_in_flight s <= 1
  /\ (calls_in_flight s = 1 <-> semaphore s = 0)
  /\ (calls_in_flight s = 0 <-> semaphore s = 1)
  /\ (forall l s', step l s = Some s' ->
        semaphore s' - semaphore s = calls_in_flight s - calls_in_flight s').
Proof.
  intros Hs. pose proof (reachable_consistent s Hs) as ([Hsem Hg] & _ & _).
  pose proof (calls_in_flight_nonneg s) as Hn.
  repeat split; try lia.
  intros l s' Hstep.
  pose proof (reachable_consistent s' (reachable_step l s s' Hs Hstep)) as ([_ Hg'] & _ & _).
  lia.
Qed.

(** C3: on a queue of capacity N > 0 that holds N items, [put_nowait]
    raises [QueueFull] for every item, and the handler of an arriving
    request ends in the same step with the error 503, never suspended;
    the queue, the consumers and the semaphore are left as they were. *)
Theorem enqueue_on_full_queue_is_rejected s request_body :
  0 < maxsize (queue s) ->
  qsize (queue s) = maxsize (queue s) ->
  let busy :=
    Returned (Raise (HTTPException 503 (lit "Server too busy. Please try again later."))) in
  (forall item, put_nowait (queue s) item = Raise QueueFull)
  /\ step (Arrive request_body) s = Some (arrive s request_body)
  /\ queue (arrive s request_body) = queue s
  /\ handlers (arrive s request_body) = handlers s ++ [busy]
  /\ consumers (arrive s request_body) = consumers s
  /\ semaphore (arrive s request_body) = semaphore s.
Proof.
  intros Hmax Hsize busy.
  assert (Hfull : full (queue s) = true).
  { unfold full. destruct (Z.leb_spec (maxsize (queue s)) 0); [lia|].
    apply Z.leb_le. lia. }
  assert (Hput : forall item, put_nowait (queue s) item = Raise QueueFull)
    by (intros item; unfold put_nowait; rewrite Hfull; reflexivity).
  split; [exact Hput|]. split; [reflexivity|].
  unfold arrive. destruct (build_messages _ _ _) as [[st next] msgs].
  cbn [queue with_futures with_objects]. rewrite Hput. repeat split.
Qed.

Lemma exec_keeps_timeout ls : forall s s' h r fut,
  (fut < next_future s)%nat -> futures s fut = Cancelled ->
  handlers s !! h = Some (Returned r) ->
  exec ls s = Some s' ->
  futures s' fut = Cancelled /\ handlers s' !! h = Some (Returned r).
Proof.
  induction ls as [|l ls IH]; intros s s' h r fut Hlt Hf Hh Hexec; simpl in Hexec.
  - injection Hexec as <-. split; assumption.
  - destruct (step l s) as [s1|] eqn:Hstep; [|discriminate]. simpl in Hexec.
    apply (IH s1 s' h r fut); [| | |exact Hexec].
    + destruct (step_handlers l s s1 Hstep) as [Hn _]. lia.
    + eapply step_keeps_cancelled; eassumption.
    + eapply step_keeps_returned; eassumption.
Qed.

(** C1: when the deadline of a waiting handler passes, its future is
    cancelled and the handler returns the 408 error; whatever the
    application does afterwards, the future stays cancelled and the
    handler's outcome stays that error.  From then on a consumer that
    takes the item from the queue drops it without touching the
    semaphore, the store or any future, and a consumer whose engine call
    for the item ends, with whatever outcome, writes to no future and (the
    outcome being a value or an [Exception]) goes on with the queue. *)
Theorem no_delivery_after_timeout s h fut s1 ls s2 :
  reachable s ->
  handlers s !! h = Some (Awaiting fut) ->
  step (Deadline h) s = Some s1 ->
  exec ls s1 = Some s2 ->
  let timed_out :=
    Returned (Raise (HTTPException 408 (lit "Generation timed out"))) in
  (futures s1 fut = Cancelled /\ handlers s1 !! h = Some timed_out)
  /\ (futures s2 fut = Cancelled /\ handlers s2 !! h = Some timed_out)
  /\ (forall c rd,
        consumers s2 !! c = Some AwaitGet ->
        head (items (queue s2)) = Some rd -> future rd = fut ->
        exists s3, step (Dequeue c) s2 = Some s3
          /\ consumers s3 = consumers s2 /\ semaphore s3 = semaphore s2
          /\ objects s3 = objects s2 /\ futures s3 = futures s2
          /\ handlers s3 = handlers s2
          /\ items (queue s3) = tail (items (queue s2)))
  /\ (forall c rd t o,
        consumers s2 !! c = Some (AwaitEngine rd t) -> future rd = fut ->
        exists s3, step (EngineDone c o) s2 = Some s3
          /\ (forall x, futures s3 x = futures s2 x)
          /\ handlers s3 = handlers s2
          /\ (ordinary o = true -> consumers s3 !! c = Some AwaitGet)).
Proof.
  intros Hs Hh Hstep Hexec timed_out.
  pose proof (reachable_consistent s Hs) as (_ & _ & Hhok).
  pose proof (Hhok h fut Hh) as Hlt.
  assert (H1 : futures s1 fut = Cancelled /\ handlers s1 !! h = Some timed_out
               /\ next_future s1 = next_future s).
  { simpl in Hstep. unfold deadline in Hstep. rewrite Hh in Hstep.
    destruct (futures s fut) eqn:Hf; try discriminate.
    injection Hstep as <-. simpl. repeat split.
    - rewrite !fn_lookup_insert. reflexivity.
    - apply list_lookup_insert_eq. eapply lookup_lt_Some. exact Hh. }
  destruct H1 as (Hf1 & Hh1 & Hn1).
  assert (H2 : futures s2 fut = Cancelled /\ handlers s2 !! h = Some timed_out).
  { eapply exec_keeps_timeout; [|exact Hf1|exact Hh1|exact Hexec]. lia. }
  destruct H2 as [Hf2 Hh2].
  pose proof (reachable_exec ls s1 s2 (reachable_step _ _ _ Hs Hstep) Hexec) as Hs2.
  pose proof (reachable_consistent s2 Hs2) as (_ & Hok2 & _).
  split; [split; assumption|]. split; [split; assumption|]. split.
  - intros c rd Hc Hhead Hrd. simpl. unfold dequeue, get. rewrite Hc.
    destruct (items (queue s2)) as [|rd' rest] eqn:Hitems; [discriminate|].
    injection Hhead as ->. simpl. rewrite Hrd, Hf2. simpl.
    unfold task_done. simpl.
    assert (Hpos : 0 < unfinished_tasks (queue s2)).
    { rewrite (tasks s2 Hok2). unfold live_items, len. rewrite Hitems. simpl. lia. }
    destruct (Z.leb_spec (unfinished_tasks (queue s2)) 0); [lia|].
    eexists. split; [reflexivity|]. repeat split.
  - intros c rd t o Hc Hrd. simpl. unfold engine_done. rewrite Hc.
    eexists. split; [reflexivity|].
    set (sr := with_semaphore s2 (release (semaphore s2))).
    assert (Hpos : 0 < unfinished_tasks (queue sr))
      by (eapply (live_items_pos s2); [exact Hok2|exact Hc|reflexivity]).
    rewrite complete_item_eq by exact Hpos. simpl. rewrite Hrd, Hf2.
    rewrite write_outcome_cancelled. repeat split.
    + intros x. destruct (decide (x = fut)) as [->|Hne].
      * rewrite fn_lookup_insert. symmetry. exact Hf2.
      * apply fn_lookup_insert_ne. congruence.
    + intros Hord.
      assert (Hnone : (write_outcome Cancelled (generation_error (engine_result o))).2 = None).
      { destruct (ordinary_generation o Hord) as [[r ->]|[d ->]]; reflexivity. }
      rewrite Hnone. apply list_lookup_insert_eq. eapply lookup_lt_Some. exact Hc.
Qed.

End Guarantees.


(** A choice whose message has no content raises [KeyError]. *)
Lemma message_without_content_is_a_failure :
  engine_failure
    (Returns (PDict [(lit "choices", PList [PDict [(lit "message", PDict [])]])]))
    (KeyError (lit "content")).
Proof. apply answer_rejected. reflexivity. Qed.

(** A dict without 'choices' is read as a dict with no choice, and a
    choice without 'message' is skipped. *)
Lemma missing_choices_tolerated d :
  dict_get d (lit "choices") = None -> extract_response (PDict d) = Ok [].
Proof. intros H. unfold extract_response. rewrite H. reflexivity. Qed.

Lemma choice_without_message_skipped :
  extract_response
    (PDict [(lit "choices",
             PList [PDict []; PDict [(lit "message", PDict [(lit "content", PStr (lit "ok"))])]])])
  = Ok (lit "ok").
Proof. reflexivity. Qed.

Lemma state_busy_reachable : reachable (runtime := sample_runtime) state_busy.
Proof.
  exists [Arrive (sample_request 3); Dequeue 0%nat]. vm_compute. reflexivity.
Qed.

Lemma state_full_holds_five :
  maxsize (queue state_full) = 5 /\ qsize (queue state_full) = 5.
Proof. vm_compute. split; reflexivity. Qed.

Lemma no_delivery_after_timeout_witness :
  handlers state_late_answer !! 0%nat
    = Some (Returned (Raise (HTTPException 408 (lit "Generation timed out"))))
  /\ futures state_late_answer 0%nat = Cancelled.
Proof.
  assert (H1 : handlers state_busy !! 0%nat = Some (Awaiting 0%nat))
    by (vm_compute; reflexivity).
  assert (H2 : step (runtime := sample_runtime) (Deadline 0%nat) state_busy
               = Some state_timed_out) by (vm_compute; reflexivity).
  assert (H3 : exec (runtime := sample_runtime)
                 [EngineDone 0%nat (Returns sample_answer)] state_timed_out
               = Some state_late_answer) by (vm_compute; reflexivity).
  destruct (no_delivery_after_timeout (runtime := sample_runtime)
              state_busy 0%nat 0%nat state_timed_out
              [EngineDone 0%nat (Returns sample_answer)] state_late_answer
              state_busy_reachable H1 H2 H3) as (_ & [Hf Hh] & _).
  split; assumption.
Defined.

Lemma at_most_one_generation_in_flight_witness :
  calls_in_flight state_busy = 1 /\ calls_in_flight state_busy <= 1
  /\ semaphore state_busy = 0.
Proof.
  destruct (at_most_one_generation_in_flight (runtime := sample_runtime)
              state_busy state_busy_reachable) as (Hle & [H1 _] & _).
  assert (Hc : calls_in_flight state_busy = 1) by (vm_compute; reflexivity).
  split; [exact Hc|]. split; [exact Hle|]. exact (H1 Hc).
Defined.

Lemma enqueue_on_full_queue_is_rejected_witness :
  queue (arrive state_full (sample_request 1)) = queue state_full
  /\ handlers (arrive state_full (sample_request 1)) !! 5%nat
     = Some (Returned (Raise (HTTPException 503
               (lit "Server too busy. Please try again later.")))).
Proof.
  destruct (enqueue_on_full_queue_is_rejected (runtime := sample_runtime)
              state_full (sample_request 1) eq_refl eq_refl)
    as (_ & _ & Hq & Hh & _).
  split; [exact Hq|]. rewrite Hh. vm_compute. reflexivity.
Defined.



(** ** The truncator: how much it removes *)

Lemma count_tokens_roughly_capped (text : pystr) :
  len text <= 400 -> 0 <= count_tokens_roughly text <= 100.
Proof.
  intros H. pose proof (len_nonneg text) as H0.
  unfold count_tokens_roughly. rewrite estimate_small by lia.
  split.
  - apply Z.div_pos; lia.
  - apply Z.div_le_upper_bound; lia.
Qed.

Lemma total_estimated_tokens_bound st messages :
  (forall m, m ∈ messages -> len (content (st m)) <= 400) ->
  0 <= total_estimated_tokens st messages <= 100 * len messages.
Proof.
  unfold total_estimated_tokens, len.
  assert (H : forall acc, (forall m, m ∈ messages -> len (content (st m)) <= 400) ->
            acc <= foldl (fun acc m => acc + count_tokens_roughly (content (st m))) acc messages
                <= acc + 100 * Z.of_nat (length messages)).
  { induction messages as [|m ms IH]; intros acc Hb; simpl; [lia|].
    pose proof (count_tokens_roughly_capped (content (st m))
                  (Hb m ltac:(apply elem_of_cons; left; reflexivity))) as Hm.
    specialize (IH (acc + count_tokens_roughly (content (st m)))
                  (fun m' Hin => Hb m' ltac:(apply elem_of_cons; right; exact Hin))).
    lia. }
  intros Hb. specialize (H 0 Hb). lia.
Qed.


Lemma loop_cond_budget_mono st a b messages :
  b <= a -> loop_cond st a messages = true -> loop_cond st b messages = true.
Proof.
  unfold loop_cond. intros Hba [H1 H2]%andb_prop. apply Z.ltb_lt in H1.
  apply andb_true_intro. split; [apply Z.ltb_lt; lia|exact H2].
Qed.

(** A conversation truncated for a budget [a] and the conversation itself
    truncate alike for any smaller budget. *)
Lemma truncate_loop_resume st a b messages out :
  b <= a ->
  truncate_loop st a messages = Ok out ->
  truncate_loop st b out = truncate_loop st b messages.
Proof.
  intros Hba.
  induction messages as [ms IH] using (induction_ltof1 _ (@length nat)).
  unfold ltof in IH. rewrite (truncate_loop_step st a ms).
  destruct (loop_cond st a ms) eqn:Hc.
  - pose proof (loop_cond_length _ _ _ Hc) as Hlen.
    destruct (pop_2_in_range ms Hlen) as [x Hpop]. rewrite Hpop. intros Hr.
    rewrite (truncate_loop_step st b ms), (loop_cond_budget_mono st a b ms Hba Hc), Hpop.
    apply IH; [|exact Hr].
    rewrite length_delete by (apply lookup_lt_is_Some_2; exact Hlen). lia.
  - intros [= <-]. reflexivity.
Qed.

Lemma cap_all_twice st messages out :
  (forall m, m ∈ out -> m ∈ messages) ->
  forall m, cap_all (cap_all st messages) out m = cap_all st messages m.
Proof.
  intros Hsub m. destruct (decide (m ∈ out)) as [Hin|Hnin].
  - apply message_eq; [apply cap_all_role|].
    rewrite cap_all_content by exact Hin.
    rewrite cap_all_content by (apply Hsub; exact Hin).
    rewrite take_take. f_equal.
  - apply cap_all_notin. exact Hnin.
Qed.

(** X1: the truncator returns a conversation whose estimate is within
    the budget, or one of at most two messages; the estimate is at most
    200 in that case (two contents of at most 400 characters), so for a
    budget of 200 or more the result is always within the budget. *)
Theorem truncate_meets_budget_or_floor st messages max_tokens :
  let '(st', r) := truncate_messages_to_fit_context st messages max_tokens in
  exists out, r = Ok out
    /\ (total_estimated_tokens st' out <= max_tokens \/ (length out <= 2)%nat)
    /\ 0 <= total_estimated_tokens st' out <= Z.max max_tokens 200
    /\ (200 <= max_tokens -> total_estimated_tokens st' out <= max_tokens).
Proof.
  unfold truncate_messages_to_fit_context.
  destruct (truncate_loop_least (cap_all st messages) max_tokens messages)
    as (k & Hr & Hexit & _).
  eexists. split; [exact Hr|].
  set (out := take 2 messages ++ drop (2 + k) messages) in *.
  pose proof (loop_cond_false _ _ _ Hexit) as Hpost.
  assert (Hb : 0 <= total_estimated_tokens (cap_all st messages) out <= 100 * len out).
  { apply total_estimated_tokens_bound. intros m Hm.
    apply cap_all_bound. eapply kept_subset. exact Hm. }
  split; [exact Hpost|]. unfold len in Hb. split; [destruct Hpost; lia|].
  intros H200. destruct Hpost; lia.
Qed.

(** X2: the truncator removes as few messages as the loop allows: the
    result is the input without the [k] messages after the first two, for
    every [j < k] removing only [j] of them leaves the estimate above the
    budget, and a conversation within the budget is returned whole. *)
Theorem truncate_removes_no_more_than_needed st messages max_tokens :
  let '(st', r) := truncate_messages_to_fit_context st messages max_tokens in
  exists k, r = Ok (take 2 messages ++ drop (2 + k) messages)
    /\ (forall j, (j < k)%nat ->
          max_tokens < total_estimated_tokens st' (take 2 messages ++ drop (2 + j) messages))
    /\ (total_estimated_tokens st' messages <= max_tokens -> r = Ok messages).
Proof.
  unfold truncate_messages_to_fit_context.
  destruct (truncate_loop_least (cap_all st messages) max_tokens messages)
    as (k & Hr & _ & Hmin).
  exists k. split; [exact Hr|]. split.
  - intros j Hj. apply loop_cond_true. apply Hmin. exact Hj.
  - intros Hfit. rewrite truncate_loop_step.
    destruct (loop_cond (cap_all st messages) max_tokens messages) eqn:Hc; [|reflexivity].
    apply loop_cond_true in Hc. lia.
Qed.

(** X3: truncating for a budget [a] and then for a budget [b] gives the
    list and the contents of truncating once for the smaller of the two. *)
Theorem truncate_twice_is_truncate_min st messages a b :
  let '(st1, r1) := truncate_messages_to_fit_context st messages a in
  exists out1, r1 = Ok out1 /\
    let '(st2, r2) := truncate_messages_to_fit_context st1 out1 b in
    let '(st3, r3) := truncate_messages_to_fit_context st messages (Z.min a b) in
    r2 = r3 /\ forall m, st2 m = st3 m.
Proof.
  unfold truncate_messages_to_fit_context.
  destruct (truncate_loop_least (cap_all st messages) a messages)
    as (k & Hr & Hexit & _).
  eexists. split; [exact Hr|].
  set (out := take 2 messages ++ drop (2 + k) messages) in *.
  assert (Hst : forall m, cap_all (cap_all st messages) out m = cap_all st messages m).
  { apply cap_all_twice. intros m Hm. eapply kept_subset. exact Hm. }
  split; [|exact Hst].
  rewrite (truncate_loop_ext _ _ _ _ Hst).
  destruct (Z.le_ge_cases b a) as [Hba|Hab].
  - rewrite Z.min_r by exact Hba. eapply truncate_loop_resume; eassumption.
  - rewrite Z.min_l by exact Hab. rewrite Hr, truncate_loop_step.
    destruct (loop_cond (cap_all st messages) b out) eqn:Hc; [|reflexivity].
    rewrite (loop_cond_budget_mono _ b a out Hab Hc) in Hexit. discriminate.
Qed.

(** ** Unpacking the answer (api.py 65-74) *)

Lemma collect_choices_concat choices texts :
  Forall2 choice_text choices texts ->
  forall response, collect_choices response choices = Ok (response ++ concat texts).
Proof.
  induction 1 as [|choice text choices texts Hc _ IH]; intros response.
  - simpl. rewrite app_nil_r. reflexivity.
  - destruct Hc as [d Hd|d m c Hd Hm]; cbn [collect_choices py_contains].
    + rewrite Hd. rewrite bool_decide_eq_false_2 by (intros [x Hx]; discriminate).
      simpl. rewrite IH. reflexivity.
    + rewrite Hd. rewrite bool_decide_eq_true_2 by eauto.
      cbn [mbind result_bind py_getitem]. rewrite Hd.
      cbn [mbind result_bind py_getitem]. rewrite Hm.
      cbn [mbind result_bind py_iadd_str]. rewrite IH, <- app_assoc. reflexivity.
Qed.

(** X4: for an answer that is a dict whose 'choices' is a list of dicts,
    each without a 'message' or with a 'message' that has a string
    'content', the response is the concatenation, in order, of those
    contents; a choice without 'message' adds nothing. *)
Theorem extract_response_concatenates d choices texts :
  dict_get d (lit "choices") = Some (PList choices) ->
  Forall2 choice_text choices texts ->
  extract_response (PDict d) = Ok (concat texts).
Proof.
  intros Hd Hc. unfold extract_response. rewrite Hd. simpl.
  apply (collect_choices_concat choices texts Hc []).
Qed.

Lemma extract_response_concatenates_witness :
  extract_response sample_answer_three = Ok (lit "hello").
Proof.
  apply (extract_response_concatenates _
           [PDict [(lit "message", PDict [(lit "content", PStr (lit "hel"))])];
            PDict [(lit "index", PStr (lit "1"))];
            PDict [(lit "message", PDict [(lit "content", PStr (lit "lo"))])]]
           [lit "hel"; []; lit "lo"]).
  - reflexivity.
  - constructor; [eapply choice_taken; reflexivity|].
    constructor; [apply choice_skipped; reflexivity|].
    constructor; [eapply choice_taken; reflexivity|constructor].
Defined.

(** ** The system prompt (api.py 127-145) *)

Lemma split_cons_comma s : split comma (comma :: s) = [] :: split comma s.
Proof. reflexivity. Qed.

Lemma split_nonempty s : split comma s <> [].
Proof.
  destruct s as [|c s]; simpl; [discriminate|].
  destruct (N.eqb c comma); [discriminate|].
  destruct (split comma s); discriminate.
Qed.

Lemma split_app_comma p rest :
  comma ∉ p -> split comma (p ++ comma :: rest) = p :: split comma rest.
Proof.
  induction p as [|c p IH]; intros Hp; [reflexivity|].
  apply not_elem_of_cons in Hp as [Hc Hp]. simpl.
  destruct (N.eqb_spec c comma) as [->|_]; [congruence|].
  rewrite IH by exact Hp. reflexivity.
Qed.

Lemma concat_split s : concat (split comma s) = filter (fun c => c <> comma) s.
Proof.
  induction s as [|c s IH]; [reflexivity|]. simpl.
  destruct (N.eqb_spec c comma) as [->|Hne].
  - rewrite filter_cons_False by (intros H; apply H; reflexivity). exact IH.
  - rewrite filter_cons_True by exact Hne. rewrite <- IH.
    pose proof (split_nonempty s) as Hs.
    destruct (split comma s); [congruence|]. reflexivity.
Qed.

Lemma length_split s :
  length (split comma s) = S (length (filter (fun c => c = comma) s)).
Proof.
  induction s as [|c s IH]; [reflexivity|]. simpl.
  destruct (N.eqb_spec c comma) as [->|Hne].
  - rewrite filter_cons_True by reflexivity. simpl. rewrite IH. reflexivity.
  - rewrite filter_cons_False by exact Hne. rewrite <- IH.
    pose proof (split_nonempty s) as Hs.
    destruct (split comma s); [congruence|]. reflexivity.
Qed.

Lemma foldl_app_concat (base : pystr) pieces :
  foldl (fun system_prompt fact => system_prompt ++ fact) base pieces
  = base ++ concat pieces.
Proof.
  revert base. induction pieces as [|p ps IH]; intros base; simpl.
  - rewrite app_nil_r. reflexivity.
  - rewrite IH, <- app_assoc. reflexivity.
Qed.

Lemma build_system_prompt_facts bot_profile :
  build_system_prompt bot_profile =
  build_system_prompt (without_appearance bot_profile)
  ++ concat (drop 3 (split comma (requests.appearance bot_profile))).
Proof.
  unfold build_system_prompt. rewrite !foldl_app_concat. simpl.
  rewrite app_nil_r. reflexivity.
Qed.

(** X5: an appearance with fewer than three commas adds nothing to the
    system prompt: the pieces after the third are the only ones used. *)
Theorem appearance_facts_need_three_commas bot_profile :
  (length (filter (fun c => c = comma) (requests.appearance bot_profile)) < 3)%nat ->
  build_system_prompt bot_profile = build_system_prompt (without_appearance bot_profile).
Proof.
  intros H. rewrite build_system_prompt_facts, drop_ge, app_nil_r; [reflexivity|].
  rewrite length_split. lia.
Qed.

(** X6: of an appearance the system prompt gets what follows the third
    comma, with the commas taken out: the later pieces are appended
    without any separator. *)
Theorem appearance_facts_after_third_comma bot_profile p0 p1 p2 rest :
  comma ∉ p0 -> comma ∉ p1 -> comma ∉ p2 ->
  requests.appearance bot_profile = p0 ++ comma :: p1 ++ comma :: p2 ++ comma :: rest ->
  build_system_prompt bot_profile =
  build_system_prompt (without_appearance bot_profile)
  ++ filter (fun c => c <> comma) rest.
Proof.
  intros H0 H1 H2 Ha. rewrite build_system_prompt_facts, Ha.
  rewrite !split_app_comma by assumption. simpl. rewrite drop_0, concat_split. reflexivity.
Qed.

Lemma endswith_spec (s suffix : pystr) :
  endswith s suffix = true <-> exists stem, s = stem ++ suffix.
Proof.
  unfold endswith. rewrite andb_true_iff, Nat.leb_le, bool_decide_eq_true. split.
  - intros [Hlen Hdrop]. exists (take (length s - length suffix) s).
    rewrite <- Hdrop at 2. symmetry. apply take_drop.
  - intros [stem ->]. rewrite length_app. split; [lia|].
    replace (length stem + length suffix - length suffix)%nat with (length stem) by lia.
    apply drop_app_length.
Qed.

(** X7: the sentence after the prompt follows the end of the bot's name:
    " You a girl." when the name ends with ".f", " You a boy." in every
    other case, a name of fewer than two characters included. *)
Theorem gender_sentence_follows_name_suffix bot_profile :
  ((exists stem, requests.name bot_profile = stem ++ lit ".f")
   /\ build_system_prompt (without_appearance bot_profile)
      = base_prompt bot_profile ++ lit " You a girl.")
  \/ ((forall stem, requests.name bot_profile <> stem ++ lit ".f")
      /\ build_system_prompt (without_appearance bot_profile)
         = base_prompt bot_profile ++ lit " You a boy.").
Proof.
  unfold build_system_prompt, base_prompt. cbn [without_appearance requests.name
    requests.appearance requests.system_prompt].
  destruct (endswith (requests.name bot_profile) (lit ".f")) eqn:He.
  - left. split; [apply endswith_spec; exact He|]. reflexivity.
  - right. split; [|reflexivity].
    intros stem Hs. assert (H : endswith (requests.name bot_profile) (lit ".f") = true)
      by (apply endswith_spec; eauto).
    congruence.
Qed.


(** ** The steps of the application, case by case *)

Ltac shapes H :=
  destruct H as [rb st next msgs Hb Hfull|rb st next msgs Hb Hfull
                |c rd rest Hc Hitems Hf|c rd rest out Hc Hitems Hf Hsem Hout
                |c rd rest Hc Hitems Hf Hsem|c rd out Hc Hsem Hout
                |c rd t o f fl Hc Hund Hw|h fut0 response Hh Hf
                |h fut0 e Hh Hf|h fut0 Hh Hf].

Ltac now_state :=
  cbn [objects next_object futures next_future queue semaphore consumers handlers
       with_handlers with_queue with_futures with_objects with_semaphore
       set_consumer with_consumers set_future set_handler
       maxsize requeue items unfinished_tasks] in *.


Section StepInversion.
Context {runtime : PyRuntime}.

(** In a consistent state every step has one of the shapes. *)
Lemma step_inversion l s s' :
  consistent s -> step l s = Some s' -> step_shape s l s'.
Proof.
  intros (Hg & Hok & _) Hstep. destruct l as [rb|c|c|c o|h|h]; simpl in Hstep.
  - injection Hstep as <-. unfold arrive.
    destruct (build_messages _ _ _) as [[st next] msgs] eqn:Hb.
    unfold put_nowait. cbn [queue with_futures with_objects].
    destruct (full (queue s)) eqn:Hfull.
    + exact (shape_rejected s rb st next msgs Hb Hfull).
    + exact (shape_queued s rb st next msgs Hb Hfull).
  - unfold dequeue, get in Hstep.
    destruct (consumers s !! c) as [[| | |]|] eqn:Hc; try discriminate.
    destruct (items (queue s)) as [|rd rest] eqn:Hitems; [discriminate|].
    assert (Hpos : 0 < unfinished_tasks (queue s)).
    { rewrite (tasks s Hok). unfold live_items, len. rewrite Hitems. simpl. lia. }
    cbn [futures queue with_queue semaphore] in Hstep.
    destruct (cancelled (futures s (future rd))) eqn:Hcanc.
    + unfold task_done in Hstep. cbn [unfinished_tasks] in Hstep.
      destruct (Z.leb_spec (unfinished_tasks (queue s)) 0); [lia|].
      injection Hstep as <-.
      assert (Hf : futures s (future rd) = Cancelled)
        by (destruct (futures s (future rd)); try discriminate; reflexivity).
      exact (shape_skipped s c rd rest Hc Hitems Hf).
    + unfold acquire in Hstep.
      destruct (Z.ltb_spec 0 (semaphore s)) as [Hsem|Hsem]; injection Hstep as <-.
      * match goal with |- context [start_generation ?s0 c rd] =>
          destruct (start_generation_eq s0 c rd) as (out & Hout & ->) end.
        exact (shape_started s c rd rest out Hc Hitems Hcanc Hsem Hout).
      * exact (shape_waiting s c rd rest Hc Hitems Hcanc Hsem).
  - unfold acquire_permit in Hstep.
    destruct (consumers s !! c) as [[|rd| |]|] eqn:Hc; try discriminate.
    unfold acquire in Hstep.
    destruct (Z.ltb_spec 0 (semaphore s)) as [Hsem|Hsem]; [|discriminate].
    simpl in Hstep. injection Hstep as <-.
    match goal with |- context [start_generation ?s0 c rd] =>
      destruct (start_generation_eq s0 c rd) as (out & Hout & ->) end.
    exact (shape_resumed s c rd out Hc Hsem Hout).
  - unfold engine_done in Hstep.
    destruct (consumers s !! c) as [[| |rd t|]|] eqn:Hc; try discriminate.
    injection Hstep as <-.
    assert (Hpos : 0 < unfinished_tasks (queue (with_semaphore s (release (semaphore s)))))
      by (eapply (live_items_pos s); [exact Hok|exact Hc|reflexivity]).
    rewrite complete_item_eq by exact Hpos.
    assert (Hund : futures s (future rd) = Pending \/ futures s (future rd) = Cancelled).
    { apply (undecided s Hok). unfold live_items.
      destruct (consumers_split _ _ _ Hc) as (pre & post & Hcs & _).
      rewrite Hcs, held_split. simpl.
      apply elem_of_app; right. apply elem_of_app; right. apply elem_of_cons; left.
      reflexivity. }
    destruct (write_outcome (futures s (future rd)) (generation_error (engine_result o)))
      as [f fl] eqn:Hw.
    cbn [futures with_semaphore] in *. rewrite Hw.
    exact (shape_completed s c rd t o f fl Hc Hund Hw).
  - unfold deliver in Hstep.
    destruct (handlers s !! h) as [[fut|]|] eqn:Hh; try discriminate.
    destruct (futures s fut) as [| |response|e] eqn:Hf; try discriminate.
    + destruct (handler_except s fut CancelledError) as [s1 r] eqn:He.
      injection Hstep as <-.
      pose proof (shape_failed s h fut CancelledError Hh (or_intror (conj Hf eq_refl))) as H.
      rewrite He in H. exact H.
    + injection Hstep as <-. exact (shape_delivered s h fut response Hh Hf).
    + destruct (handler_except s fut e) as [s1 r] eqn:He.
      injection Hstep as <-.
      pose proof (shape_failed s h fut e Hh (or_introl Hf)) as H.
      rewrite He in H. exact H.
  - unfold deadline in Hstep.
    destruct (handlers s !! h) as [[fut|]|] eqn:Hh; try discriminate.
    destruct (futures s fut) eqn:Hf; try discriminate.
    injection Hstep as <-. cbn [handler_except set_future futures with_futures].
    rewrite fn_lookup_insert. exact (shape_timed_out s h fut Hh Hf).
Qed.

End StepInversion.

Section Invariants.
Context {runtime : PyRuntime}.

(** Induction over the states of the application. *)
Lemma reachable_ind (P : State -> Prop) :
  P startup_event ->
  (forall l s s', reachable s -> P s -> step_shape s l s' -> P s') ->
  forall s, reachable s -> P s.
Proof.
  intros H0 Hstep s [ls Hls].
  assert (H : forall ls s0 s1, reachable s0 -> P s0 -> exec ls s0 = Some s1 -> P s1).
  { clear ls s Hls. induction ls as [|l ls IH]; intros s0 s1 Hr Hp Hexec; simpl in Hexec.
    - injection Hexec as <-. exact Hp.
    - destruct (step l s0) as [s'|] eqn:Hs; [|discriminate]. simpl in Hexec.
      apply (IH s' s1); [eapply reachable_step; eassumption| |exact Hexec].
      apply (Hstep l s0 s' Hr Hp). apply step_inversion; [|exact Hs].
      apply reachable_consistent. exact Hr. }
  apply (H ls startup_event s); [exists []; reflexivity|exact H0|exact Hls].
Qed.

Lemma full_false q : full q = false -> 0 < maxsize q -> qsize q < maxsize q.
Proof.
  unfold full. intros H Hm. destruct (Z.leb_spec (maxsize q) 0); [lia|].
  apply Z.leb_gt in H. exact H.
Qed.

Lemma handler_except_rest s fut e :
  objects (handler_except s fut e).1 = objects s
  /\ next_object (handler_except s fut e).1 = next_object s
  /\ queue (handler_except s fut e).1 = queue s
  /\ semaphore (handler_except s fut e).1 = semaphore s
  /\ consumers (handler_except s fut e).1 = consumers s
  /\ handlers (handler_except s fut e).1 = handlers s
  /\ next_future (handler_except s fut e).1 = next_future s.
Proof.
  unfold handler_except. destruct e; try destruct (is_Exception _); simpl; auto 10.
Qed.

(** X9: the queue never holds more than [MAX_QUEUE_SIZE] items: in every
    state of the application its capacity is [MAX_QUEUE_SIZE], as set at
    startup, and its size is at most that, since [put_nowait] is the only
    way in. *)
Theorem queue_never_exceeds_capacity s :
  reachable s ->
  maxsize (queue s) = MAX_QUEUE_SIZE /\ qsize (queue s) <= MAX_QUEUE_SIZE.
Proof.
  revert s. apply reachable_ind.
  { split; [reflexivity|]. unfold qsize, len; simpl; unfold MAX_QUEUE_SIZE; lia. }
  intros l s s' _ [Hm Hq] Hshape. unfold qsize, len in *.
  destruct Hshape as [rb st next msgs Hb Hfull|rb st next msgs Hb Hfull
                     |c rd rest Hc Hitems Hf|c rd rest out Hc Hitems Hf Hsem Hout
                     |c rd rest Hc Hitems Hf Hsem|c rd out Hc Hsem Hout
                     |c rd t o f fl Hc Hund Hw|h fut response Hh Hf
                     |h fut e Hh Hf|h fut Hh Hf];
    try (destruct (handler_except_rest s fut e) as (_ & _ & Hqe & _));
    cbn [queue with_handlers with_queue with_futures with_objects
         with_semaphore set_consumer with_consumers set_future
         set_handler maxsize requeue items];
    try rewrite Hqe; try rewrite Hitems in Hq;
    (split; [exact Hm|]); try exact Hq; try (simpl in Hq; lia).
  pose proof (full_false (queue s) Hfull
                ltac:(rewrite Hm; unfold MAX_QUEUE_SIZE; lia)) as Hlt.
  unfold qsize, len in Hlt. rewrite length_app. simpl. lia.
Qed.

End Invariants.

(** ** Futures, replies and the consumer task *)

Section Outcomes.
Context {runtime : PyRuntime}.

(** The [except] clauses of the handler, entered for a future that is
    done, leave every future as it is. *)
Lemma handler_except_done s fut e x :
  futures s fut <> Pending ->
  futures (handler_except s fut e).1 x = futures s x.
Proof.
  intros Hf. unfold handler_except.
  destruct e; try destruct (is_Exception _); simpl; try reflexivity.
  destruct (decide (x = fut)) as [->|Hne].
  - rewrite fn_lookup_insert. destruct (futures s fut); try reflexivity. congruence.
  - rewrite fn_lookup_insert_ne by congruence. reflexivity.
Qed.

Lemma failed_not_pending s fut e :
  futures s fut = Exception e \/ (futures s fut = Cancelled /\ e = CancelledError) ->
  futures s fut <> Pending.
Proof. intros [H|[H _]]; rewrite H; discriminate. Qed.

(** Futures not yet created are pending. *)
Lemma unborn_pending s :
  reachable s -> forall fut, (next_future s <= fut)%nat -> futures s fut = Pending.
Proof.
  revert s.
  apply (reachable_ind
           (fun s => forall fut, (next_future s <= fut)%nat -> futures s fut = Pending));
    [reflexivity|].
  intros l s s' Hr IH Hshape fut Hle.
  pose proof (reachable_consistent s Hr) as (_ & Hok & Hh_ok).
  shapes Hshape; now_state; try (apply IH; exact Hle).
  - rewrite fn_lookup_insert_ne by lia. apply IH. lia.
  - rewrite fn_lookup_insert_ne by lia. apply IH. lia.
  - assert (Hlive : rd ∈ live_items s).
    { unfold live_items. destruct (consumers_split _ _ _ Hc) as (pre & post & Hcs & _).
      rewrite Hcs, held_split. simpl.
      apply elem_of_app; right. apply elem_of_app; right. apply elem_of_cons; left.
      reflexivity. }
    pose proof (allocated s Hok rd Hlive).
    rewrite fn_lookup_insert_ne by lia. apply IH. lia.
  - rewrite handler_except_done by (apply (failed_not_pending s fut0 e); exact Hf).
    destruct (handler_except_rest s fut0 e) as (_ & _ & _ & _ & _ & _ & Hn).
    apply IH. rewrite <- Hn. exact Hle.
  - specialize (Hh_ok h fut0 Hh).
    rewrite !fn_lookup_insert_ne by lia. apply IH. lia.
Qed.

(** A step leaves a future that is done as it is. *)
Lemma step_shape_done s l s' fut :
  step_shape s l s' -> (fut < next_future s)%nat -> futures s fut <> Pending ->
  futures s' fut = futures s fut.
Proof.
  intros Hshape Hlt Hdone.
  shapes Hshape; now_state; try reflexivity.
  - rewrite fn_lookup_insert_ne by lia. reflexivity.
  - rewrite fn_lookup_insert_ne by lia. reflexivity.
  - destruct (decide (fut = future rd)) as [->|Hne].
    + rewrite fn_lookup_insert. destruct Hund as [Hp|Hcanc]; [congruence|].
      rewrite Hcanc in Hw. pose proof (write_outcome_cancelled (generation_error (engine_result o))) as Hwc.
      rewrite Hw in Hwc. simpl in Hwc. congruence.
    + rewrite fn_lookup_insert_ne by congruence. reflexivity.
  - apply handler_except_done. apply (failed_not_pending s fut0 e). exact Hf.
  - destruct (decide (fut = fut0)) as [->|Hne]; [congruence|].
    rewrite !fn_lookup_insert_ne by congruence. reflexivity.
Qed.

(** X11: outcomes are final.  Whatever happens later, a future that is
    done (cancelled, or holding a result or an exception) stays exactly as
    it is, and a handler that has returned keeps its answer. *)
Theorem outcomes_are_final ls : forall s s',
  reachable s -> exec ls s = Some s' ->
  (forall fut, futures s fut <> Pending -> futures s' fut = futures s fut)
  /\ (forall h r, handlers s !! h = Some (Returned r) ->
        handlers s' !! h = Some (Returned r)).
Proof.
  induction ls as [|l ls IH]; intros s s' Hr Hexec; simpl in Hexec.
  - injection Hexec as <-. split; auto.
  - destruct (step l s) as [s1|] eqn:Hstep; [|discriminate]. simpl in Hexec.
    destruct (IH s1 s' (reachable_step l s s1 Hr Hstep) Hexec) as [IHf IHh].
    split.
    + intros fut Hdone.
      assert (Hlt : (fut < next_future s)%nat).
      { destruct (Nat.lt_ge_cases fut (next_future s)) as [Hlt|Hge]; [exact Hlt|].
        exfalso. apply Hdone. apply unborn_pending; assumption. }
      assert (H1 : futures s1 fut = futures s fut).
      { apply (step_shape_done s l s1 fut); [|exact Hlt|exact Hdone].
        apply step_inversion; [apply reachable_consistent; exact Hr|exact Hstep]. }
      rewrite <- H1. apply IHf. rewrite H1. exact Hdone.
    + intros h r Hh. apply IHh. eapply step_keeps_returned; eassumption.
Qed.

Lemma write_outcome_in_flight f r e :
  f = Pending \/ f = Cancelled ->
  (write_outcome f r).2 = Some e -> is_Exception e = false.
Proof.
  unfold write_outcome.
  intros [-> | ->]; destruct r as [response|e0]; simpl; try discriminate;
    destruct (is_Exception e0) eqn:He; simpl; try discriminate;
    intros H; injection H as <-; exact He.
Qed.

Lemma only_consumer (pc pc' : consumer_pc) (c : nat) :
  [pc] !! c = Some pc' -> c = 0%nat /\ pc = pc'.
Proof.
  destruct c as [|c]; simpl; [intros H; injection H as <-; auto|discriminate].
Qed.

(** X12: the application has one consumer task, which is suspended in
    [queue.get()] or in the engine call, never on the semaphore: the
    permit is always free when it asks.  The task is over only when
    something that is no [Exception] came out of the engine call. *)
Theorem consumer_waits_on_queue_or_engine s :
  reachable s -> exists pc, consumers s = [pc] /\ serving pc.
Proof.
  revert s. apply (reachable_ind (fun s => exists pc, consumers s = [pc] /\ serving pc)).
  { exists AwaitGet. split; [reflexivity|exact I]. }
  intros l s s' Hr (pc & Hcs & Hpc) Hshape.
  pose proof (reachable_consistent s Hr) as ([Hsem0 Hgate] & Hok & _).
  shapes Hshape; now_state;
    try (rewrite Hcs in Hc; apply only_consumer in Hc as [-> Hc]; subst pc);
    try rewrite Hcs; try (exists AwaitGet; split; [reflexivity|exact I]); simpl.
  - exists pc. auto.
  - exists pc. auto.
  - exists (AwaitEngine rd out). split; [reflexivity|exact I].
  - exfalso. unfold calls_in_flight in Hgate. rewrite Hcs in Hgate.
    change (count_in_engine [AwaitGet]) with 0 in Hgate. lia.
  - destruct Hpc.
  - destruct fl as [e|].
    + exists (Finished e). split; [reflexivity|].
      apply (write_outcome_in_flight (futures s (future rd))
               (generation_error (engine_result o)) e Hund).
      rewrite Hw. reflexivity.
    + exists AwaitGet. split; [reflexivity|exact I].
  - exists pc. auto.
  - destruct (handler_except_rest s fut0 e) as (_ & _ & _ & _ & -> & _).
    exists pc. auto.
  - exists pc. auto.
Qed.

Lemma queue_in_arrival_order s :
  reachable s ->
  forall i j rd1 rd2, (i < j)%nat ->
    items (queue s) !! i = Some rd1 -> items (queue s) !! j = Some rd2 ->
    (future rd1 < future rd2)%nat.
Proof.
  revert s.
  apply (reachable_ind
           (fun s => forall i j rd1 rd2, (i < j)%nat ->
              items (queue s) !! i = Some rd1 -> items (queue s) !! j = Some rd2 ->
              (future rd1 < future rd2)%nat)).
  { intros i j rd1 rd2 _ H. simpl in H. discriminate. }
  intros l s s' Hr IH Hshape i j rd1 rd2 Hij H1 H2.
  pose proof (reachable_consistent s Hr) as (_ & Hok & _).
  shapes Hshape; now_state;
    try (destruct (handler_except_rest s fut0 e) as (_ & _ & Hq & _); rewrite Hq in *);
    try (apply (IH i j rd1 rd2 Hij H1 H2));
    try (rewrite Hitems in IH; apply (IH (S i) (S j) rd1 rd2); [lia|exact H1|exact H2]).
  apply lookup_app_Some in H2 as [H2|[Hlen H2]].
  - pose proof (lookup_lt_Some _ _ _ H2) as Hj.
    assert (Hi : (i < length (items (queue s)))%nat) by (clear -Hij Hj; lia).
    rewrite lookup_app_l in H1 by exact Hi.
    apply (IH i j rd1 rd2 Hij H1 H2).
  - apply list_lookup_singleton_Some in H2 as [Hj <-]. simpl.
    assert (Hi : (i < length (items (queue s)))%nat) by (clear -Hij Hj Hlen; lia).
    rewrite lookup_app_l in H1 by exact Hi.
    apply (allocated s Hok). unfold live_items. apply elem_of_app; left.
    eapply list_elem_of_lookup_2. exact H1.
Qed.

Lemma write_outcome_failure f r e :
  f = Pending \/ f = Cancelled ->
  (write_outcome f (generation_error r)).1 = Exception e ->
  exists detail, e = HTTPException 500 detail.
Proof.
  unfold write_outcome, generation_error.
  intros [-> | ->]; destruct r as [response|e0]; simpl; try discriminate.
  - destruct (is_Exception e0) eqn:He; simpl; [|rewrite He; discriminate].
    intros H. injection H as <-. eauto.
  - destruct (is_Exception e0) eqn:He; simpl; [|rewrite He]; discriminate.
Qed.

Lemma write_outcome_not_cancelled r :
  (write_outcome Pending r).1 <> Cancelled.
Proof.
  unfold write_outcome. destruct r as [response|e]; simpl; [discriminate|].
  destruct (is_Exception e); simpl; discriminate.
Qed.

Lemma replies_hold s : reachable s -> replies_ok s.
Proof.
  revert s. apply (reachable_ind replies_ok).
  { split; intros; simpl in *; discriminate. }
  intros l s s' Hr [Hfail Hlive Honce Hans] Hshape.
  pose proof (reachable_consistent s Hr) as (_ & Hok & Hh_ok).
  assert (Hnew : forall (hs : list handler_pc) x h pc,
             (hs ++ [x]) !! h = Some pc ->
             hs !! h = Some pc \/ (h = length hs /\ pc = x)).
  { intros hs x h pc H. apply lookup_app_Some in H as [H|[Hlen H]]; [auto|].
    apply list_lookup_singleton_Some in H as [H <-]. right. split; [lia|reflexivity]. }
  assert (Hset : forall (hs : list handler_pc) h0 x h pc,
             (<[h0 := x]> hs) !! h = Some pc ->
             (h <> h0 /\ hs !! h = Some pc) \/ (h = h0 /\ pc = x)).
  { intros hs h0 x h pc H. destruct (decide (h = h0)) as [->|Hne].
    - right. split; [reflexivity|].
      pose proof (lookup_lt_Some _ _ _ H) as Hlt. rewrite length_insert in Hlt.
      rewrite list_lookup_insert_eq in H by exact Hlt. congruence.
    - left. rewrite list_lookup_insert_ne in H by congruence. auto. }
  shapes Hshape; now_state; try (split; assumption).
  - (* queued *)
    split; now_state.
    + intros fut e. destruct (decide (fut = next_future s)) as [->|Hne].
      * rewrite fn_lookup_insert. discriminate.
      * rewrite fn_lookup_insert_ne by congruence. apply Hfail.
    + intros h fut H. apply Hnew in H as [H|[_ H]].
      * pose proof (Hh_ok h fut H). rewrite fn_lookup_insert_ne by lia. eapply Hlive; exact H.
      * injection H as ->. rewrite fn_lookup_insert. discriminate.
    + intros h1 h2 fut H1 H2.
      apply Hnew in H1 as [H1|[E1 H1]]; apply Hnew in H2 as [H2|[E2 H2]].
      * eapply Honce; eassumption.
      * injection H2 as ->. pose proof (Hh_ok h1 _ H1). lia.
      * injection H1 as ->. pose proof (Hh_ok h2 _ H2). lia.
      * congruence.
    + intros h r H. apply Hnew in H as [H|[_ H]]; [eapply Hans; exact H|discriminate].
  - (* rejected *)
    split; now_state.
    + intros fut e. destruct (decide (fut = next_future s)) as [->|Hne].
      * rewrite fn_lookup_insert. discriminate.
      * rewrite fn_lookup_insert_ne by congruence. apply Hfail.
    + intros h fut H. apply Hnew in H as [H|[_ H]]; [|discriminate].
      pose proof (Hh_ok h fut H). rewrite fn_lookup_insert_ne by lia. eapply Hlive; exact H.
    + intros h1 h2 fut H1 H2.
      apply Hnew in H1 as [H1|[E1 H1]]; [|discriminate].
      apply Hnew in H2 as [H2|[E2 H2]]; [|discriminate].
      eapply Honce; eassumption.
    + intros h r H. apply Hnew in H as [H|[_ H]]; [eapply Hans; exact H|].
      injection H as ->. simpl. auto.
  - (* completed *)
    assert (Hf : f = (write_outcome (futures s (future rd))
                        (generation_error (engine_result o))).1) by (rewrite Hw; reflexivity).
    split; now_state; try assumption.
    + intros fut e. destruct (decide (fut = future rd)) as [->|Hne].
      * rewrite fn_lookup_insert, Hf. apply write_outcome_failure. exact Hund.
      * rewrite fn_lookup_insert_ne by congruence. apply Hfail.
    + intros h fut H. destruct (decide (fut = future rd)) as [->|Hne].
      * rewrite fn_lookup_insert, Hf. pose proof (Hlive h _ H) as Hl.
        destruct Hund as [Hp|Hcanc]; [|congruence].
        rewrite Hp. apply write_outcome_not_cancelled.
      * rewrite fn_lookup_insert_ne by congruence. eapply Hlive; exact H.
  - (* delivered *)
    split; now_state; try assumption.
    + intros h' fut H. apply Hset in H as [[_ H]|[_ H]]; [eapply Hlive; exact H|discriminate].
    + intros h1 h2 fut H1 H2.
      apply Hset in H1 as [[_ H1]|[_ H1]]; [|discriminate].
      apply Hset in H2 as [[_ H2]|[_ H2]]; [|discriminate].
      eapply Honce; eassumption.
    + intros h' r H. apply Hset in H as [[_ H]|[_ H]]; [eapply Hans; exact H|].
      injection H as ->. exact I.
  - (* failed *)
    destruct Hf as [Hf|[Hf _]]; [|exfalso; exact (Hlive h fut0 Hh Hf)].
    destruct (Hfail fut0 e Hf) as [detail ->].
    simpl. now_state. split; now_state; try assumption.
    + intros h' fut H. apply Hset in H as [[_ H]|[_ H]]; [eapply Hlive; exact H|discriminate].
    + intros h1 h2 fut H1 H2.
      apply Hset in H1 as [[_ H1]|[_ H1]]; [|discriminate].
      apply Hset in H2 as [[_ H2]|[_ H2]]; [|discriminate].
      eapply Honce; eassumption.
    + intros h' r H. apply Hset in H as [[_ H]|[_ H]]; [eapply Hans; exact H|].
      injection H as ->. simpl. auto.
  - (* timed out *)
    split; now_state.
    + intros fut e. destruct (decide (fut = fut0)) as [->|Hne].
      * rewrite fn_lookup_insert. discriminate.
      * rewrite !fn_lookup_insert_ne by congruence. apply Hfail.
    + intros h' fut H. apply Hset in H as [[Hne H]|[_ H]]; [|discriminate].
      destruct (decide (fut = fut0)) as [->|Hnf].
      * exfalso. apply Hne. eapply Honce; eassumption.
      * rewrite !fn_lookup_insert_ne by congruence. eapply Hlive; exact H.
    + intros h1 h2 fut H1 H2.
      apply Hset in H1 as [[_ H1]|[_ H1]]; [|discriminate].
      apply Hset in H2 as [[_ H2]|[_ H2]]; [|discriminate].
      eapply Honce; eassumption.
    + intros h' r H. apply Hset in H as [[_ H]|[_ H]]; [eapply Hans; exact H|].
      injection H as ->. simpl. auto.
Qed.

(** X15: a handler that has returned gave a response, or raised
    [HTTPException] with status 408, 500 or 503; no other exception
    leaves a handler. *)
Theorem every_reply_is_200_408_500_or_503 s h r :
  reachable s -> handlers s !! h = Some (Returned r) ->
  (exists response, r = Ok response)
  \/ (exists code detail, r = Raise (HTTPException code detail)
        /\ (code = 408 \/ code = 500 \/ code = 503)).
Proof.
  intros Hr Hh. pose proof (answered s (replies_hold s Hr) h r Hh) as H.
  destruct r as [response|e]; [left; eauto|].
  destruct e; simpl in H; try contradiction. right. eauto.
Qed.

Lemma held_is_live s c rd t :
  consumers s !! c = Some (AwaitEngine rd t) -> rd ∈ live_items s.
Proof.
  intros Hc. unfold live_items.
  destruct (consumers_split _ _ _ Hc) as (pre & post & Hcs & _).
  rewrite Hcs, held_split. simpl.
  apply elem_of_app; right. apply elem_of_app; right. apply elem_of_cons; left.
  reflexivity.
Qed.


(** X10: requests are served in the order of their arrival: the item
    whose generation starts is the head of the queue, and its future was
    created before the future of every item still queued. *)
Theorem served_in_arrival_order s c s' rd t :
  reachable s ->
  step (Dequeue c) s = Some s' ->
  consumers s' !! c = Some (AwaitEngine rd t) ->
  items (queue s) = rd :: items (queue s')
  /\ forall rd', rd' ∈ items (queue s') -> (future rd < future rd')%nat.
Proof.
  intros Hr Hstep Hc'.
  pose proof (step_inversion _ _ _ (reachable_consistent s Hr) Hstep) as Hshape.
  assert (Hhead : items (queue s) = rd :: items (queue s')).
  { inversion Hshape as [| |c0 rd0 rest Hc Hitems Hf|c0 rd0 rest out Hc Hitems Hf Hsem Hout
                        |c0 rd0 rest Hc Hitems Hf Hsem| | | | |]; subst; now_state.
    - rewrite Hc in Hc'. discriminate.
    - rewrite list_lookup_insert_eq in Hc' by (eapply lookup_lt_Some; exact Hc).
      injection Hc' as -> _. exact Hitems.
    - rewrite list_lookup_insert_eq in Hc' by (eapply lookup_lt_Some; exact Hc).
      discriminate. }
  split; [exact Hhead|].
  intros rd' Hin. apply list_elem_of_lookup_1 in Hin as [j Hj].
  apply (queue_in_arrival_order s Hr 0%nat (S j) rd rd'); [lia| |];
    rewrite Hhead; simpl; [reflexivity|exact Hj].
Qed.

Lemma write_outcome_ordinary f o :
  f = Pending \/ f = Cancelled -> ordinary o = true ->
  (write_outcome f (generation_error (engine_result o))).2 = None.
Proof.
  intros Hf Hord.
  destruct (ordinary_generation o Hord) as [[response ->]|[detail ->]];
    destruct Hf as [-> | ->]; reflexivity.
Qed.

(** X13: as long as every engine call returns or raises an [Exception],
    the consumer task goes on: after any such run from startup it is
    suspended in [queue.get()] or in an engine call. *)
Theorem consumer_outlives_ordinary_outcomes ls : forall s,
  exec ls startup_event = Some s ->
  Forall ordinary_label ls ->
  consumers s = [AwaitGet] \/ exists rd t, consumers s = [AwaitEngine rd t].
Proof.
  assert (H : forall ls s s', reachable s ->
            (consumers s = [AwaitGet] \/ exists rd t, consumers s = [AwaitEngine rd t]) ->
            exec ls s = Some s' -> Forall ordinary_label ls ->
            consumers s' = [AwaitGet] \/ exists rd t, consumers s' = [AwaitEngine rd t]).
  { clear ls. induction ls as [|l ls IH]; intros s s' Hr Hp Hexec Hall; simpl in Hexec.
    - injection Hexec as <-. exact Hp.
    - destruct (step l s) as [s1|] eqn:Hstep; [|discriminate]. simpl in Hexec.
      apply Forall_cons in Hall as [Hl Hall].
      apply (IH s1 s' (reachable_step l s s1 Hr Hstep)); [|exact Hexec|exact Hall].
      pose proof (reachable_consistent s Hr) as Hcons.
      pose proof Hcons as ([Hsem0 Hgate] & Hok & _).
      pose proof (step_inversion _ _ _ Hcons Hstep) as Hshape.
      shapes Hshape; now_state; try exact Hp.
      + destruct Hp as [Hp|(rd0 & t0 & Hp)]; rewrite Hp in Hc.
        * apply only_consumer in Hc as [-> _]. rewrite Hp. right. eauto.
        * apply only_consumer in Hc as [_ Hc]. discriminate.
      + exfalso. destruct Hp as [Hp|(rd0 & t0 & Hp)]; rewrite Hp in Hc.
        * unfold calls_in_flight in Hgate. rewrite Hp in Hgate.
          change (count_in_engine [AwaitGet]) with 0 in Hgate. lia.
        * apply only_consumer in Hc as [_ Hc]. discriminate.
      + exfalso. destruct Hp as [Hp|(rd0 & t0 & Hp)]; rewrite Hp in Hc;
          apply only_consumer in Hc as [_ Hc]; discriminate.
      + pose proof (write_outcome_ordinary (futures s (future rd)) o Hund Hl) as Hfl.
        rewrite Hw in Hfl. simpl in Hfl. subst fl.
        destruct Hp as [Hp|(rd0 & t0 & Hp)]; rewrite Hp in Hc;
          apply only_consumer in Hc as [-> Hc]; rewrite Hp; left; reflexivity.
      + destruct (handler_except_rest s fut0 e) as (_ & _ & _ & _ & -> & _). exact Hp. }
  intros s Hexec Hall.
  apply (H ls startup_event s); [exists []; reflexivity|left; reflexivity|exact Hexec|exact Hall].
Qed.

(** X14: once the consumer task is over nothing restarts it: whatever
    happens later it stays over, no item leaves the queue, and no future
    gets a result or an exception any more (a future changes only by the
    cancellation of a timeout). *)
Theorem ended_consumer_resolves_nothing ls : forall s s' e,
  consumers s = [Finished e] ->
  exec ls s = Some s' ->
  consumers s' = [Finished e]
  /\ items (queue s) `prefix_of` items (queue s')
  /\ forall fut, futures s' fut = futures s fut
                 \/ futures s' fut = Pending \/ futures s' fut = Cancelled.
Proof.
  induction ls as [|l ls IH]; intros s s' e Hcs Hexec; simpl in Hexec.
  - injection Hexec as <-. split; [exact Hcs|]. split; [reflexivity|]. auto.
  - destruct (step l s) as [s1|] eqn:Hstep; [|discriminate]. simpl in Hexec.
    assert (H1 : consumers s1 = [Finished e]
                 /\ items (queue s) `prefix_of` items (queue s1)
                 /\ forall fut, futures s1 fut = futures s fut
                                \/ futures s1 fut = Pending
                                \/ futures s1 fut = Cancelled).
    { destruct l as [rb|c|c|c o|h|h]; simpl in Hstep.
      - injection Hstep as <-. unfold arrive.
        destruct (build_messages _ _ _) as [[st next] msgs].
        unfold put_nowait. cbn [queue with_futures with_objects].
        destruct (full (queue s)); now_state.
        + split; [exact Hcs|]. split; [reflexivity|]. intros fut.
          destruct (decide (fut = next_future s)) as [->|Hne].
          * rewrite fn_lookup_insert. auto.
          * rewrite fn_lookup_insert_ne by congruence. auto.
        + split; [exact Hcs|]. split; [apply prefix_app_r; reflexivity|]. intros fut.
          destruct (decide (fut = next_future s)) as [->|Hne].
          * rewrite fn_lookup_insert. auto.
          * rewrite fn_lookup_insert_ne by congruence. auto.
      - unfold dequeue in Hstep. rewrite Hcs in Hstep.
        destruct c as [|c]; simpl in Hstep; discriminate.
      - unfold acquire_permit in Hstep. rewrite Hcs in Hstep.
        destruct c as [|c]; simpl in Hstep; discriminate.
      - unfold engine_done in Hstep. rewrite Hcs in Hstep.
        destruct c as [|c]; simpl in Hstep; discriminate.
      - unfold deliver in Hstep.
        destruct (handlers s !! h) as [[fut0|]|]; try discriminate.
        assert (Hexc : forall e0 s2 r, futures s fut0 <> Pending ->
                  handler_except s fut0 e0 = (s2, r) ->
                  consumers (set_handler s2 h r) = [Finished e]
                  /\ items (queue s) `prefix_of` items (queue (set_handler s2 h r))
                  /\ forall fut, futures (set_handler s2 h r) fut = futures s fut
                                 \/ futures (set_handler s2 h r) fut = Pending
                                 \/ futures (set_handler s2 h r) fut = Cancelled).
        { intros e0 s2 r Hdone He.
          pose proof (handler_except_rest s fut0 e0) as (_ & _ & Hq & _ & Hc & _).
          pose proof (handler_except_done s fut0 e0) as Hfs.
          rewrite He in Hq, Hc, Hfs. simpl in Hq, Hc, Hfs. now_state.
          rewrite Hq, Hc. split; [exact Hcs|]. split; [reflexivity|].
          intros fut. left. apply Hfs. exact Hdone. }
        destruct (futures s fut0) eqn:Hf; try discriminate.
        + destruct (handler_except s fut0 CancelledError) as [s2 r] eqn:He.
          injection Hstep as <-. apply (Hexc CancelledError); [discriminate|exact He].
        + injection Hstep as <-. now_state. split; [exact Hcs|]. split; [reflexivity|]. auto.
        + destruct (handler_except s fut0 e0) as [s2 r] eqn:He.
          injection Hstep as <-. apply (Hexc e0); [discriminate|exact He].
      - unfold deadline in Hstep.
        destruct (handlers s !! h) as [[fut0|]|]; try discriminate.
        destruct (futures s fut0) eqn:Hf; try discriminate.
        injection Hstep as <-. cbn [handler_except set_future futures with_futures].
        now_state. split; [exact Hcs|]. split; [reflexivity|]. intros fut.
        destruct (decide (fut = fut0)) as [->|Hne].
        + rewrite !fn_lookup_insert. simpl. auto.
        + rewrite !fn_lookup_insert_ne by congruence. auto. }
    destruct H1 as (Hcs1 & Hq1 & Hf1).
    destruct (IH s1 s' e Hcs1 Hexec) as (Hcs' & Hq' & Hf').
    split; [exact Hcs'|]. split; [etrans; eassumption|].
    intros fut. destruct (Hf' fut) as [H|H]; [|auto].
    rewrite H. apply Hf1.
Qed.

End Outcomes.

(** ** The conversations of live requests *)

Lemma context_messages_frame context : forall st next,
  forall l, ~ (next <= l < next + length context)%nat ->
    (context_messages st next context).1.1 l = st l.
Proof.
  induction context as [|m rest IH]; intros st next l Hl; simpl; [reflexivity|].
  specialize (IH (<[next := {| role := requests.turn m;
                               content := requests.message m |}]> st) (S next) l).
  destruct (context_messages _ (S next) rest) as [[st2 next2] refs]. simpl in *.
  rewrite IH by lia. apply fn_lookup_insert_ne. lia.
Qed.

(** The references of a new conversation are new and distinct, and the
    objects that exist stay as they are. *)
Lemma build_messages_fresh st next request_body st' next' msgs :
  build_messages st next request_body = (st', next', msgs) ->
  next' = S (next + length (requests.context request_body))
  /\ NoDup msgs
  /\ (forall m, m ∈ msgs <-> (next <= m < next')%nat)
  /\ (forall l, ~ (next <= l < next')%nat -> st' l = st l).
Proof.
  unfold build_messages.
  pose proof (context_messages_frame (requests.context request_body) st next) as Hold.
  destruct (context_messages_spec (requests.context request_body) st next)
    as (st1 & Heq & _ & _).
  rewrite Heq in Hold |- *. simpl in Hold.
  set (n := length (requests.context request_body)).
  intros H. injection H as <- <- <-.
  assert (Hperm : list_insert_at 1 (next + n)%nat (seq next n)
                  ≡ₚ seq next (S n)).
  { unfold list_insert_at. rewrite seq_S.
    rewrite <- (take_drop 1 (seq next n)) at 3.
    rewrite <- app_assoc. apply Permutation_app_head.
    rewrite (Permutation_app_comm (drop 1 (seq next n)) [(next + n)%nat]). reflexivity. }
  split; [reflexivity|]. split; [rewrite Hperm; apply NoDup_seq|]. split.
  - intros m. rewrite Hperm, elem_of_seq. lia.
  - intros l Hl.
    destruct (decide (l = (next + n)%nat)) as [->|Hne]; [lia|].
    rewrite fn_lookup_insert_ne by congruence. apply Hold. fold n. lia.
Qed.

Lemma total_estimated_tokens_local st1 st2 ms :
  (forall m, m ∈ ms -> st1 m = st2 m) ->
  total_estimated_tokens st1 ms = total_estimated_tokens st2 ms.
Proof.
  unfold total_estimated_tokens. generalize 0.
  induction ms as [|m ms IH]; intros acc Heq; [reflexivity|].
  simpl. rewrite (Heq m) by (apply elem_of_cons; left; reflexivity).
  apply IH. intros m' Hm'. apply Heq. apply elem_of_cons; right; exact Hm'.
Qed.

(** What the engine is given for the budget of the application. *)
Lemma truncate_fits st messages out :
  truncate_messages_to_fit_context st messages MAX_CONTEXT_TOKENS
    = (cap_all st messages, Ok out) ->
  (exists k, out = take 2 messages ++ drop (2 + k) messages)
  /\ (forall m, m ∈ messages -> len (content (cap_all st messages m)) <= 400)
  /\ 0 <= total_estimated_tokens (cap_all st messages) out <= MAX_CONTEXT_TOKENS.
Proof.
  unfold truncate_messages_to_fit_context. intros H.
  destruct (truncate_loop_least (cap_all st messages) MAX_CONTEXT_TOKENS messages)
    as (k & Hr & Hexit & _).
  assert (Hout : out = take 2 messages ++ drop (2 + k) messages) by congruence.
  split; [exists k; exact Hout|]. split; [intros m; apply cap_all_bound|].
  rewrite <- Hout in Hexit.
  pose proof (loop_cond_false _ _ _ Hexit) as Hpost.
  assert (Hb : 0 <= total_estimated_tokens (cap_all st messages) out <= 100 * len out).
  { apply total_estimated_tokens_bound. intros m Hm.
    apply cap_all_bound. rewrite Hout in Hm. eapply kept_subset. exact Hm. }
  unfold len, MAX_CONTEXT_TOKENS in *. destruct Hpost; lia.
Qed.

Lemma insert_held (cs : list consumer_pc) c pc rd :
  rd ∈ (<[c := pc]> cs) ≫= held -> rd ∈ held pc \/ rd ∈ cs ≫= held.
Proof.
  destruct (cs !! c) as [pc0|] eqn:Hc.
  - destruct (consumers_split _ _ _ Hc) as (pre & post & Hcs & Hins).
    rewrite Hins, Hcs, !held_split.
    rewrite !elem_of_app. intros [H|[H|H]]; auto.
  - rewrite list_insert_ge by (apply lookup_ge_None; exact Hc). auto.
Qed.

Section Inputs.
Context {runtime : PyRuntime}.

(** The live items after a step are those before it, and the item of the
    request that arrived, if any; references are never given twice. *)
Lemma step_shape_live s l s' :
  step_shape s l s' ->
  (next_object s <= next_object s')%nat
  /\ forall rd, rd ∈ live_items s' ->
       rd ∈ live_items s
       \/ exists request_body st,
            l = Arrive request_body
            /\ build_messages (objects s) (next_object s) request_body
                = (st, next_object s', messages rd)
            /\ future rd = next_future s.
Proof.
  intros Hshape. unfold live_items.
  shapes Hshape; now_state;
    try (destruct (handler_except_rest s fut0 e) as (_ & Hn & Hq & _ & Hcs & _);
         rewrite Hn, Hq, Hcs);
    try (split; [lia|]; intros rd0 Hin; left; exact Hin).
  - destruct (build_messages_fresh _ _ _ _ _ _ Hb) as (Hn & _). split; [lia|].
    intros rd0. rewrite !elem_of_app, list_elem_of_singleton.
    intros [[H|H]|H]; auto. right. exists rb, st. rewrite H. auto.
  - destruct (build_messages_fresh _ _ _ _ _ _ Hb) as (Hn & _). split; [lia|].
    intros rd0 Hin. left. exact Hin.
  - split; [lia|]. intros rd0. rewrite Hitems, !elem_of_app, elem_of_cons.
    intros [H|H]; auto.
  - split; [lia|]. intros rd0. rewrite Hitems, !elem_of_app, elem_of_cons.
    intros [H|H]; [auto|]. apply insert_held in H as [H|H]; [|auto].
    apply list_elem_of_singleton in H. auto.
  - split; [lia|]. intros rd0. rewrite Hitems, !elem_of_app, elem_of_cons.
    intros [H|H]; [auto|]. apply insert_held in H as [H|H]; [|auto].
    apply list_elem_of_singleton in H. auto.
  - split; [lia|]. intros rd0. rewrite !elem_of_app.
    intros [H|H]; [auto|]. apply insert_held in H as [H|H]; [|auto].
    apply list_elem_of_singleton in H as ->. left. right.
    destruct (consumers_split _ _ _ Hc) as (pre & post & Hcs & _).
    rewrite Hcs, held_split, !elem_of_app. right. left.
    apply list_elem_of_singleton. reflexivity.
  - split; [lia|]. intros rd0. rewrite !elem_of_app.
    intros [H|H]; [auto|]. apply insert_held in H as [H|H]; [|auto].
    destruct fl; simpl in H; apply elem_of_nil in H; contradiction.
Qed.

Lemma engine_input_frame (st st' : store) rd t :
  (forall m, m ∈ messages rd -> st' m = st m) ->
  (exists k, t = take 2 (messages rd) ++ drop (2 + k) (messages rd))
    /\ (forall m, m ∈ messages rd -> len (content (st m)) <= 400)
    /\ 0 <= total_estimated_tokens st t <= MAX_CONTEXT_TOKENS ->
  (exists k, t = take 2 (messages rd) ++ drop (2 + k) (messages rd))
    /\ (forall m, m ∈ messages rd -> len (content (st' m)) <= 400)
    /\ 0 <= total_estimated_tokens st' t <= MAX_CONTEXT_TOKENS.
Proof.
  intros Heq ([k Hk] & Hcap & Htot). split; [exists k; exact Hk|]. split.
  - intros m Hm. rewrite Heq by exact Hm. apply Hcap. exact Hm.
  - rewrite (total_estimated_tokens_local st' st t); [exact Htot|].
    intros m Hm. apply Heq. rewrite Hk in Hm. eapply kept_subset. exact Hm.
Qed.

Lemma lookup_insert_cases {A : Type} (l : list A) i x j y :
  <[i := x]> l !! j = Some y -> (j <> i /\ l !! j = Some y) \/ (j = i /\ y = x).
Proof.
  intros H. destruct (decide (j = i)) as [->|Hne].
  - right. split; [reflexivity|].
    pose proof (lookup_lt_Some _ _ _ H) as Hlt. rewrite length_insert in Hlt.
    rewrite list_lookup_insert_eq in H by exact Hlt. congruence.
  - left. rewrite list_lookup_insert_ne in H by congruence. auto.
Qed.

Lemma inputs_hold s : reachable s -> inputs_ok s.
Proof.
  revert s. apply (reachable_ind inputs_ok).
  { split.
    - intros rd m H. apply elem_of_nil in H. contradiction.
    - intros rd1 rd2 m H. apply elem_of_nil in H. contradiction.
    - intros c rd t H. destruct c; discriminate. }
  intros l s s' Hr [Hown Hsep Heng] Hshape.
  pose proof (reachable_consistent s Hr) as ([Hsem0 Hgate] & Hok & _).
  pose proof (step_shape_live s l s' Hshape) as [Hnext Hlive].
  assert (Hbusy : forall c rd t, consumers s !! c = Some (AwaitEngine rd t) ->
            semaphore s <= 0).
  { intros c rd t Hc. pose proof (in_flight_positive s c rd t Hc). lia. }
  assert (Hkeep : forall c rd t st next request_body msgs,
            consumers s !! c = Some (AwaitEngine rd t) ->
            build_messages (objects s) (next_object s) request_body = (st, next, msgs) ->
            forall m, m ∈ messages rd -> st m = objects s m).
  { intros c rd t st next rb msgs Hc Hb m Hm.
    destruct (build_messages_fresh _ _ _ _ _ _ Hb) as (_ & _ & _ & Hframe).
    apply Hframe. pose proof (Hown rd m (held_is_live s c rd t Hc) Hm). lia. }
  split.
  - intros rd m Hrd Hm. destruct (Hlive rd Hrd) as [Hold|(rb & st & _ & Hb & _)].
    + pose proof (Hown rd m Hold Hm). lia.
    + destruct (build_messages_fresh _ _ _ _ _ _ Hb) as (_ & _ & Hrange & _).
      apply Hrange in Hm. lia.
  - intros rd1 rd2 m H1 H2 Hm1 Hm2.
    destruct (Hlive rd1 H1) as [Hold1|(rb1 & st1 & Hl1 & Hb1 & Hf1)];
      destruct (Hlive rd2 H2) as [Hold2|(rb2 & st2 & Hl2 & Hb2 & Hf2)].
    + eapply Hsep; eassumption.
    + destruct (build_messages_fresh _ _ _ _ _ _ Hb2) as (_ & _ & Hrange & _).
      apply Hrange in Hm2. pose proof (Hown rd1 m Hold1 Hm1). lia.
    + destruct (build_messages_fresh _ _ _ _ _ _ Hb1) as (_ & _ & Hrange & _).
      apply Hrange in Hm1. pose proof (Hown rd2 m Hold2 Hm2). lia.
    + rewrite Hl1 in Hl2. injection Hl2 as <-. rewrite Hb1 in Hb2.
      destruct rd1, rd2. simpl in *. congruence.
  - clear Hlive Hnext. intros c0 rd0 t0 Hc0.
    shapes Hshape; now_state;
      try (destruct (handler_except_rest s fut0 e) as (Ho & _ & _ & _ & Hcs & _);
           rewrite Ho; rewrite Hcs in Hc0);
      try (apply (Heng c0 rd0 t0 Hc0)).
    + eapply engine_input_frame; [|apply (Heng c0 rd0 t0 Hc0)].
      eapply Hkeep; eassumption.
    + eapply engine_input_frame; [|apply (Heng c0 rd0 t0 Hc0)].
      eapply Hkeep; eassumption.
    + apply lookup_insert_cases in Hc0 as [[_ Hc0]|[_ Hc0]].
      * pose proof (Hbusy c0 rd0 t0 Hc0). lia.
      * injection Hc0 as -> ->. apply truncate_fits. exact Hout.
    + apply lookup_insert_cases in Hc0 as [[_ Hc0]|[_ Hc0]]; [|discriminate].
      apply (Heng c0 rd0 t0 Hc0).
    + apply lookup_insert_cases in Hc0 as [[_ Hc0]|[_ Hc0]].
      * pose proof (Hbusy c0 rd0 t0 Hc0). lia.
      * injection Hc0 as -> ->. apply truncate_fits. exact Hout.
    + apply lookup_insert_cases in Hc0 as [[_ Hc0]|[_ Hc0]].
      * apply (Heng c0 rd0 t0 Hc0).
      * destruct fl; discriminate.
Qed.

(** X17: what an engine call was given stays within the limits for as
    long as the call is in flight: it is the request's conversation
    without a block of messages after the first two, every content has
    at most 400 characters, and the estimate is at most
    [MAX_CONTEXT_TOKENS]. *)
Theorem engine_input_fits_context s c rd t :
  reachable s ->
  consumers s !! c = Some (AwaitEngine rd t) ->
  (exists k, t = take 2 (messages rd) ++ drop (2 + k) (messages rd))
  /\ (forall m, m ∈ t -> len (content (objects s m)) <= 400)
  /\ 0 <= total_estimated_tokens (objects s) t <= MAX_CONTEXT_TOKENS.
Proof.
  intros Hr Hc.
  destruct (engine_input s (inputs_hold s Hr) c rd t Hc) as ([k Hk] & Hcap & Htot).
  split; [exists k; exact Hk|]. split; [|exact Htot].
  intros m Hm. apply Hcap. rewrite Hk in Hm. eapply kept_subset. exact Hm.
Qed.

(** X18: requests share no message: a message dict that belongs to two
    live items belongs to one and the same item, and it was created
    before the next request's messages are. *)
Theorem requests_share_no_message s rd1 rd2 m :
  reachable s ->
  rd1 ∈ live_items s -> rd2 ∈ live_items s ->
  m ∈ messages rd1 -> m ∈ messages rd2 ->
  rd1 = rd2 /\ (m < next_object s)%nat.
Proof.
  intros Hr H1 H2 Hm1 Hm2. pose proof (inputs_hold s Hr) as Hin. split.
  - exact (separate s Hin rd1 rd2 m H1 H2 Hm1 Hm2).
  - exact (owned s Hin rd1 m H1 Hm1).
Qed.

(** X19: while an engine call is in flight no step changes a message
    that exists: the conversation the engine thread reads is not written
    to by the event loop. *)
Theorem no_mutation_during_generation l s s' c0 rd0 t0 :
  reachable s ->
  consumers s !! c0 = Some (AwaitEngine rd0 t0) ->
  step l s = Some s' ->
  forall m, (m < next_object s)%nat -> objects s' m = objects s m.
Proof.
  intros Hr Hc Hstep m Hm.
  pose proof (reachable_consistent s Hr) as Hcons.
  pose proof Hcons as ([Hsem0 Hgate] & _).
  pose proof (in_flight_positive s c0 rd0 t0 Hc) as Hbusy.
  pose proof (step_inversion _ _ _ Hcons Hstep) as Hshape.
  clear Hc. shapes Hshape; now_state; try reflexivity; try lia.
  - destruct (build_messages_fresh _ _ _ _ _ _ Hb) as (_ & _ & _ & Hframe).
    apply Hframe. lia.
  - destruct (build_messages_fresh _ _ _ _ _ _ Hb) as (_ & _ & _ & Hframe).
    apply Hframe. lia.
  - destruct (handler_except_rest s fut0 e) as (-> & _). reflexivity.
Qed.

End Inputs.

(** X8: the handler builds its conversation from new dicts: one per
    context message and one for the system message, all distinct, and no
    dict that existed before is written to. *)
Theorem build_messages_allocates_fresh st next request_body :
  let '(st', next', messages) := build_messages st next request_body in
  next' = S (next + length (requests.context request_body))
  /\ NoDup messages
  /\ (forall m, m ∈ messages <-> (next <= m < next')%nat)
  /\ (forall l, ~ (next <= l < next')%nat -> st' l = st l).
Proof.
  destruct (build_messages st next request_body) as [[st' next'] messages] eqn:Hb.
  exact (build_messages_fresh _ _ _ _ _ _ Hb).
Qed.

Section Skipping.
Context {runtime : PyRuntime}.

(** X20: a request that timed out while it was queued never reaches the
    engine: when the consumer takes it, the step only marks the task done;
    the permit, the messages and the consumer are as before. *)
Theorem cancelled_request_is_skipped s c rd rest :
  reachable s ->
  consumers s !! c = Some AwaitGet ->
  items (queue s) = rd :: rest ->
  futures s (future rd) = Cancelled ->
  step (Dequeue c) s
  = Some (with_queue s (requeue (queue s) rest (unfinished_tasks (queue s) - 1))).
Proof.
  intros Hr Hc Hitems Hf.
  pose proof (reachable_consistent s Hr) as (_ & Hok & _).
  assert (Hpos : 0 < unfinished_tasks (queue s)).
  { rewrite (tasks s Hok). unfold live_items, len. rewrite Hitems. simpl. lia. }
  change (dequeue s c = Some (with_queue s (requeue (queue s) rest
                                             (unfinished_tasks (queue s) - 1)))).
  unfold dequeue, get. rewrite Hc, Hitems. cbn [mbind option_bind futures with_queue].
  rewrite Hf. cbn [cancelled]. unfold task_done. cbn [queue with_queue unfinished_tasks].
  destruct (Z.leb_spec (unfinished_tasks (queue s)) 0); [lia|]. reflexivity.
Qed.

End Skipping.

(** ** Requests that wait *)

Ltac elems :=
  repeat (rewrite elem_of_app in * || rewrite elem_of_cons in *
          || rewrite elem_of_nil in *).

Section Pending.
Context {runtime : PyRuntime}.

(** The item a consumer held is the only live item a step of that
    consumer can drop. *)
Lemma live_after_set s c pc pc' rd :
  consumers s !! c = Some pc ->
  rd ∈ live_items s -> rd ∈ held pc \/ rd ∈ live_items (set_consumer s c pc').
Proof.
  intros Hc Hin.
  assert (H : rd ∈ held pc ++ live_items (set_consumer s c pc')).
  { rewrite <- (live_items_set s c pc pc' Hc). apply elem_of_app. right. exact Hin. }
  apply elem_of_app in H. exact H.
Qed.

(** X21: no request is lost.  While a handler waits on a pending future,
    the item of its request is queued or held by a consumer, unless a
    consumer task is over (then the item of the call that ended it is
    gone, and its handler can only time out). *)
Theorem pending_request_is_queued_or_in_flight s h fut :
  reachable s ->
  handlers s !! h = Some (Awaiting fut) ->
  futures s fut = Pending ->
  (exists rd, rd ∈ live_items s /\ future rd = fut)
  \/ exists c e, consumers s !! c = Some (Finished e).
Proof.
  intros Hr. revert h fut. revert s Hr.
  apply (reachable_ind
           (fun s => forall h fut, handlers s !! h = Some (Awaiting fut) ->
              futures s fut = Pending ->
              (exists rd, rd ∈ live_items s /\ future rd = fut)
              \/ exists c e, consumers s !! c = Some (Finished e))).
  { intros h fut H. discriminate. }
  intros l s s' Hr IH Hshape h0 fut Hh0 Hp.
  pose proof (reachable_consistent s Hr) as (_ & Hok & Hh_ok).
  assert (Hover : forall c pc pc',
            consumers s !! c = Some pc -> (forall e, pc <> Finished e) ->
            (exists c0 e, consumers s !! c0 = Some (Finished e)) ->
            exists c0 e, <[c := pc']> (consumers s) !! c0 = Some (Finished e)).
  { intros c pc pc' Hc Hpc (c0 & e & Hc0). exists c0, e.
    rewrite list_lookup_insert_ne; [exact Hc0|].
    intros ->. rewrite Hc in Hc0. injection Hc0 as ->. exact (Hpc e eq_refl). }
  unfold live_items in *.
  shapes Hshape; now_state.
  - (* queued *)
    apply lookup_app_Some in Hh0 as [Hh0|[_ Hh0]].
    + pose proof (Hh_ok h0 fut Hh0) as Hlt.
      rewrite fn_lookup_insert_ne in Hp by lia.
      destruct (IH h0 fut Hh0 Hp) as [(rd & Hin & Hf)|Hfin]; [left|right; exact Hfin].
      exists rd. split; [|exact Hf]. rewrite !elem_of_app in *. tauto.
    + apply list_lookup_singleton_Some in Hh0 as [_ Hh0]. injection Hh0 as <-.
      left. exists {| messages := msgs; future := next_future s |}.
      split; [|reflexivity].
      rewrite !elem_of_app, list_elem_of_singleton. left. right. reflexivity.
  - (* rejected *)
    apply lookup_app_Some in Hh0 as [Hh0|[_ Hh0]].
    + pose proof (Hh_ok h0 fut Hh0) as Hlt.
      rewrite fn_lookup_insert_ne in Hp by lia. exact (IH h0 fut Hh0 Hp).
    + apply list_lookup_singleton_Some in Hh0 as [_ Hh0]. discriminate.
  - (* skipped *)
    destruct (IH h0 fut Hh0 Hp) as [(rd0 & Hin & Hf0)|Hfin]; [left|right; exact Hfin].
    exists rd0. split; [|exact Hf0].
    rewrite Hitems in Hin. rewrite elem_of_app, elem_of_cons in Hin.
    rewrite elem_of_app. destruct Hin as [[->|Hin]|Hin]; [congruence|auto|auto].
  - (* started *)
    destruct (IH h0 fut Hh0 Hp) as [(rd0 & Hin & Hf0)|Hfin].
    + left. exists rd0. split; [|exact Hf0].
      destruct (consumers_split _ _ _ Hc) as (pre & post & Hcs & Hins).
      rewrite Hins. rewrite Hcs, Hitems in Hin. rewrite !held_split in *.
      clear -Hin. simpl in *. elems. tauto.
    + right. apply (Hover c AwaitGet); [exact Hc|discriminate|exact Hfin].
  - (* waiting *)
    destruct (IH h0 fut Hh0 Hp) as [(rd0 & Hin & Hf0)|Hfin].
    + left. exists rd0. split; [|exact Hf0].
      destruct (consumers_split _ _ _ Hc) as (pre & post & Hcs & Hins).
      rewrite Hins. rewrite Hcs, Hitems in Hin. rewrite !held_split in *.
      clear -Hin. simpl in *. elems. tauto.
    + right. apply (Hover c AwaitGet); [exact Hc|discriminate|exact Hfin].
  - (* resumed *)
    destruct (IH h0 fut Hh0 Hp) as [(rd0 & Hin & Hf0)|Hfin].
    + left. exists rd0. split; [|exact Hf0].
      destruct (consumers_split _ _ _ Hc) as (pre & post & Hcs & Hins).
      rewrite Hins. rewrite Hcs in Hin. rewrite !held_split in *.
      clear -Hin. simpl in *. elems. tauto.
    + right. apply (Hover c (AwaitSemaphore rd)); [exact Hc|discriminate|exact Hfin].
  - (* completed *)
    destruct (decide (fut = future rd)) as [->|Hne].
    + rewrite fn_lookup_insert in Hp. subst f. right.
      destruct fl as [e|].
      * exists c, e. apply list_lookup_insert_eq. eapply lookup_lt_Some. exact Hc.
      * exfalso. destruct Hund as [Hund|Hund]; rewrite Hund in Hw.
        -- unfold write_outcome in Hw.
           destruct (generation_error (engine_result o)) as [response|e]; simpl in Hw;
             [discriminate|].
           destruct (is_Exception e); simpl in Hw; discriminate.
        -- pose proof (write_outcome_cancelled (generation_error (engine_result o))) as Hwc.
           rewrite Hw in Hwc. discriminate.
    + rewrite fn_lookup_insert_ne in Hp by congruence.
      destruct (IH h0 fut Hh0 Hp) as [(rd0 & Hin & Hf0)|Hfin].
      * left. exists rd0. split; [|exact Hf0].
        destruct (consumers_split _ _ _ Hc) as (pre & post & Hcs & Hins).
        rewrite Hins. rewrite Hcs in Hin. rewrite !held_split in *.
        assert (Hrd : rd0 <> rd) by congruence.
        assert (Hfl : held match fl with Some e => Finished e | None => AwaitGet end = [])
          by (destruct fl; reflexivity).
        rewrite Hfl. clear -Hin Hrd. simpl in *. elems. tauto.
      * right. apply (Hover c (AwaitEngine rd t)); [exact Hc|discriminate|exact Hfin].
  - (* delivered *)
    apply lookup_insert_cases in Hh0 as [[_ Hh0]|[_ Hh0]]; [|discriminate].
    exact (IH h0 fut Hh0 Hp).
  - (* failed *)
    destruct (handler_except_rest s fut0 e) as (_ & _ & Hq & _ & Hcs & Hhs & _).
    rewrite Hq, Hcs. rewrite Hhs in Hh0.
    rewrite handler_except_done in Hp by (apply (failed_not_pending s fut0 e); exact Hf).
    apply lookup_insert_cases in Hh0 as [[_ Hh0]|[_ Hh0]]; [|discriminate].
    exact (IH h0 fut Hh0 Hp).
  - (* timed out *)
    apply lookup_insert_cases in Hh0 as [[_ Hh0]|[_ Hh0]]; [|discriminate].
    destruct (decide (fut = fut0)) as [->|Hne].
    + rewrite !fn_lookup_insert in Hp. discriminate.
    + rewrite !fn_lookup_insert_ne in Hp by congruence. exact (IH h0 fut Hh0 Hp).
Qed.

(** X22: a timeout cancels the future and frees nothing: the item stays
    in the queue, where it counts against the capacity until the consumer
    takes it, and an engine call in flight for it goes on, keeping the
    permit. *)
Theorem timeout_frees_nothing s h s' :
  step (Deadline h) s = Some s' ->
  queue s' = queue s /\ consumers s' = consumers s /\ semaphore s' = semaphore s
  /\ objects s' = objects s
  /\ exists fut, handlers s !! h = Some (Awaiting fut) /\ futures s' fut = Cancelled.
Proof.
  intros Hstep. change (deadline s h = Some s') in Hstep. unfold deadline in Hstep.
  destruct (handlers s !! h) as [[fut|]|] eqn:Hh; try discriminate.
  destruct (futures s fut) eqn:Hf; try discriminate.
  injection Hstep as <-. cbn [handler_except set_future futures with_futures].
  now_state. repeat (split; [reflexivity|]). exists fut. split; [reflexivity|].
  rewrite !fn_lookup_insert. reflexivity.
Qed.

End Pending.

(** ** Sample runs *)

Lemma state_full_reachable : reachable (runtime := sample_runtime) state_full.
Proof.
  exists (replicate 5 (Arrive (sample_request 1))). vm_compute. reflexivity.
Qed.

Lemma state_timed_out_reachable : reachable (runtime := sample_runtime) state_timed_out.
Proof.
  exists [Arrive (sample_request 3); Dequeue 0%nat; Deadline 0%nat].
  vm_compute. reflexivity.
Qed.

Lemma state_cancelled_in_queue_reachable :
  reachable (runtime := sample_runtime) state_cancelled_in_queue.
Proof.
  exists [Arrive (sample_request 1); Deadline 0%nat]. vm_compute. reflexivity.
Qed.

Lemma appearance_facts_need_three_commas_witness :
  build_system_prompt sample_profile_short = lit "Be kind. You a boy.".
Proof.
  rewrite (appearance_facts_need_three_commas sample_profile_short).
  - vm_compute. reflexivity.
  - vm_compute. lia.
Defined.

Lemma appearance_facts_after_third_comma_witness :
  build_system_prompt (requests.bot_profile (sample_request 0))
  = build_system_prompt (without_appearance (requests.bot_profile (sample_request 0)))
    ++ lit "green eyes".
Proof.
  rewrite (appearance_facts_after_third_comma
             (requests.bot_profile (sample_request 0))
             (lit "tall") (lit "slim") (lit "blond") (lit "green eyes")).
  - reflexivity.
  - apply (bool_decide_unpack _). vm_compute. exact I.
  - apply (bool_decide_unpack _). vm_compute. exact I.
  - apply (bool_decide_unpack _). vm_compute. exact I.
  - vm_compute. reflexivity.
Defined.

Lemma queue_never_exceeds_capacity_witness :
  maxsize (queue state_full) = MAX_QUEUE_SIZE
  /\ qsize (queue state_full) <= MAX_QUEUE_SIZE.
Proof.
  exact (queue_never_exceeds_capacity (runtime := sample_runtime) state_full state_full_reachable).
Defined.

Lemma served_in_arrival_order_witness :
  items (queue state_full)
  = {| messages := [0; 1]%nat; future := 0%nat |} :: items (queue state_full_serving)
  /\ (future {| messages := [0; 1]%nat; future := 0%nat |}
      < future {| messages := [8; 9]%nat; future := 4%nat |})%nat.
Proof.
  assert (Hstep : step (runtime := sample_runtime) (Dequeue 0%nat) state_full
                  = Some state_full_serving) by (vm_compute; reflexivity).
  assert (Hc : consumers state_full_serving !! 0%nat
               = Some (AwaitEngine {| messages := [0; 1]%nat; future := 0%nat |}
                         [0; 1]%nat)) by (vm_compute; reflexivity).
  destruct (served_in_arrival_order (runtime := sample_runtime)
              state_full 0%nat state_full_serving _ _
              state_full_reachable Hstep Hc) as [Hhead Hlater].
  split; [exact Hhead|]. apply Hlater.
  apply (list_elem_of_lookup_2 _ 3%nat). vm_compute. reflexivity.
Defined.

Lemma outcomes_are_final_witness :
  futures state_late_answer 0%nat = futures state_timed_out 0%nat
  /\ handlers state_late_answer !! 0%nat
     = Some (Returned (Raise (HTTPException 408 (lit "Generation timed out")))).
Proof.
  assert (Hexec : exec (runtime := sample_runtime)
                    [EngineDone 0%nat (Returns sample_answer)] state_timed_out
                  = Some state_late_answer) by (vm_compute; reflexivity).
  destruct (outcomes_are_final (runtime := sample_runtime)
              [EngineDone 0%nat (Returns sample_answer)]
              state_timed_out state_late_answer
              state_timed_out_reachable Hexec) as [Hf Hh].
  split.
  - apply Hf. vm_compute. discriminate.
  - apply Hh. vm_compute. reflexivity.
Defined.

Lemma consumer_waits_on_queue_or_engine_witness :
  exists pc, consumers state_busy = [pc] /\ serving pc.
Proof.
  exact (consumer_waits_on_queue_or_engine (runtime := sample_runtime) state_busy state_busy_reachable).
Defined.

Lemma consumer_outlives_ordinary_outcomes_witness :
  consumers state_after_ordinary_run = [AwaitGet]
  \/ exists rd t, consumers state_after_ordinary_run = [AwaitEngine rd t].
Proof.
  apply (consumer_outlives_ordinary_outcomes (runtime := sample_runtime) ordinary_run).
  - vm_compute. reflexivity.
  - repeat constructor.
Defined.

Lemma ended_consumer_resolves_nothing_witness :
  exists s',
    exec (runtime := sample_runtime)
      [Arrive (sample_request 1); Deadline 0%nat] state_consumer_ended = Some s'
    /\ consumers s' = [Finished CancelledError]
    /\ (futures s' 0%nat = futures state_consumer_ended 0%nat
        \/ futures s' 0%nat = Pending \/ futures s' 0%nat = Cancelled).
Proof.
  destruct (exec (runtime := sample_runtime)
              [Arrive (sample_request 1); Deadline 0%nat] state_consumer_ended)
    as [s'|] eqn:Hexec; [|vm_compute in Hexec; discriminate].
  destruct (ended_consumer_resolves_nothing (runtime := sample_runtime)
              _ state_consumer_ended s' CancelledError eq_refl Hexec)
    as (Hc & _ & Hf).
  exists s'. split; [reflexivity|]. split; [exact Hc|apply Hf].
Defined.

Lemma every_reply_is_200_408_500_or_503_witness :
  exists code detail,
    handlers state_timed_out !! 0%nat
    = Some (Returned (Raise (HTTPException code detail)))
    /\ (code = 408 \/ code = 500 \/ code = 503).
Proof.
  assert (Hh : handlers state_timed_out !! 0%nat
               = Some (Returned (Raise (HTTPException 408 (lit "Generation timed out")))))
    by (vm_compute; reflexivity).
  destruct (every_reply_is_200_408_500_or_503 (runtime := sample_runtime)
              state_timed_out 0%nat _ state_timed_out_reachable Hh)
    as [[response Hr]|(code & detail & Hr & Hcode)]; [discriminate|].
  exists code, detail. rewrite Hh, Hr. split; [reflexivity|exact Hcode].
Defined.


Lemma engine_input_fits_context_witness :
  0 <= total_estimated_tokens (objects state_busy) [0; 3; 1; 2]%nat
    <= MAX_CONTEXT_TOKENS.
Proof.
  assert (Hc : consumers state_busy !! 0%nat
               = Some (AwaitEngine sample_item [0; 3; 1; 2]%nat))
    by (vm_compute; reflexivity).
  destruct (engine_input_fits_context (runtime := sample_runtime)
              state_busy 0%nat sample_item [0; 3; 1; 2]%nat
              state_busy_reachable Hc) as (_ & _ & H).
  exact H.
Defined.

Lemma requests_share_no_message_witness :
  {| messages := [2; 3]%nat; future := 1%nat |}
  = {| messages := [2; 3]%nat; future := 1%nat |}
  /\ (3 < next_object state_full)%nat.
Proof.
  assert (Hin : {| messages := [2; 3]%nat; future := 1%nat |} ∈ live_items state_full)
    by (apply (list_elem_of_lookup_2 _ 1%nat); vm_compute; reflexivity).
  apply (requests_share_no_message (runtime := sample_runtime) state_full _ _ 3%nat
           state_full_reachable Hin Hin);
    apply (bool_decide_unpack _); vm_compute; exact I.
Defined.

Lemma no_mutation_during_generation_witness :
  exists s',
    step (runtime := sample_runtime) (Arrive (sample_request 1)) state_busy = Some s'
    /\ objects s' 3%nat = objects state_busy 3%nat.
Proof.
  assert (Hc : consumers state_busy !! 0%nat
               = Some (AwaitEngine sample_item [0; 3; 1; 2]%nat))
    by (vm_compute; reflexivity).
  eexists. split; [reflexivity|].
  apply (no_mutation_during_generation (runtime := sample_runtime)
           (Arrive (sample_request 1)) state_busy _ 0%nat sample_item [0; 3; 1; 2]%nat
           state_busy_reachable Hc eq_refl).
  vm_compute. lia.
Defined.

Lemma cancelled_request_is_skipped_witness :
  step (runtime := sample_runtime) (Dequeue 0%nat) state_cancelled_in_queue
  = Some (with_queue state_cancelled_in_queue
            (requeue (queue state_cancelled_in_queue) []
               (unfinished_tasks (queue state_cancelled_in_queue) - 1))).
Proof.
  apply (cancelled_request_is_skipped (runtime := sample_runtime)
           state_cancelled_in_queue 0%nat
           {| messages := [0; 1]%nat; future := 0%nat |} []
           state_cancelled_in_queue_reachable);
    vm_compute; reflexivity.
Defined.

Lemma pending_request_is_queued_or_in_flight_witness :
  (exists rd, rd ∈ live_items state_busy /\ future rd = 0%nat)
  \/ exists c e, consumers state_busy !! c = Some (Finished e).
Proof.
  apply (pending_request_is_queued_or_in_flight (runtime := sample_runtime)
           state_busy 0%nat 0%nat state_busy_reachable);
    vm_compute; reflexivity.
Defined.

Lemma timeout_frees_nothing_witness :
  queue state_timed_out = queue state_busy
  /\ consumers state_timed_out = consumers state_busy
  /\ semaphore state_timed_out = semaphore state_busy.
Proof.
  assert (Hstep : step (runtime := sample_runtime) (Deadline 0%nat) state_busy
                  = Some state_timed_out) by (vm_compute; reflexivity).
  destruct (timeout_frees_nothing (runtime := sample_runtime)
              state_busy 0%nat state_timed_out Hstep) as (Hq & Hc & Hs & _).
  split; [exact Hq|]. split; [exact Hc|exact Hs].
Defined.
